(* ===================================================================== *)
(*  GraNNI correspondence-recovery core (RAG_partial_scan.ipynb)          *)
(*                                                                       *)
(*  A shallow embedding of the notebook's numerical core in exact        *)
(*  arithmetic: numpy arrays of shape (d, n) are matrices 'M[F]_(d, n)   *)
(*  over a real field F, 1-D arrays of length d are row vectors 'rV_d.   *)
(*  The routines of numpy and scipy that the notebook calls (svd, inv,   *)
(*  exp, quadratic_assignment, linear_sum_assignment) are not part of    *)
(*  the notebook: they are parameters of the embedding, and a theorem    *)
(*  that needs one of their documented properties takes it as a          *)
(*  hypothesis at the arguments the notebook passes.                     *)
(* ===================================================================== *)

From Stdlib Require Reals ClassicalEpsilon FunctionalExtensionality.
From HB Require Import structures.
From mathcomp Require Import boot order algebra.

Set Implicit Arguments.
Unset Strict Implicit.
Unset Printing Implicit Defensive.

Import GRing.Theory Num.Theory Order.POrderTheory Order.TotalTheory.
Local Open Scope ring_scope.

(* ===================================================================== *)
(*  The real numbers of the Standard Library as a real field, so that    *)
(*  np.exp can be read as the exponential function.                      *)
(* ===================================================================== *)

Module RealsStructure.

Import Rdefinitions Raxioms RIneq Rbasic_fun.

Definition eqr (x y : R) : bool :=
  if Req_dec_T x y is left _ then true else false.

Lemma eqrP : Equality.axiom eqr.
Proof. by move=> x y; rewrite /eqr; case: Req_dec_T => e; constructor. Qed.

#[export] HB.instance Definition _ := hasDecEq.Build R eqrP.

Section Choice.

Variable T : Type.

Definition pick_some (P : pred T) (n : nat) : option T :=
  match ClassicalEpsilon.excluded_middle_informative (exists x, P x) with
  | left ex =>
      Some (proj1_sig (ClassicalEpsilon.constructive_indefinite_description _ ex))
  | right _ => None
  end.

Lemma pick_someP (P : pred T) n x : pick_some P n = Some x -> P x.
Proof.
rewrite /pick_some; case: ClassicalEpsilon.excluded_middle_informative => // ex.
by case: ClassicalEpsilon.constructive_indefinite_description => y Py [<-].
Qed.

Lemma pick_some_ex (P : pred T) : (exists x, P x) -> exists n, pick_some P n.
Proof.
move=> ex; exists 0%N; rewrite /pick_some.
by case: ClassicalEpsilon.excluded_middle_informative.
Qed.

Lemma pick_some_ext (P Q : pred T) : P =1 Q -> pick_some P =1 pick_some Q.
Proof. by move=> /FunctionalExtensionality.functional_extensionality ->. Qed.

End Choice.

#[export] HB.instance Definition _ :=
  hasChoice.Build R (@pick_someP R) (@pick_some_ex R) (@pick_some_ext R).

Fact RplusA : associative Rplus.
Proof. by move=> x y z; rewrite Rplus_assoc. Qed.

#[export] HB.instance Definition _ :=
  GRing.isZmodule.Build R RplusA Rplus_comm Rplus_0_l Rplus_opp_l.

Fact RmultA : associative Rmult.
Proof. by move=> x y z; rewrite Rmult_assoc. Qed.

Fact R1_neq_0 : R1 != R0.
Proof. by apply/eqP; exact: R1_neq_R0. Qed.

#[export] HB.instance Definition _ := GRing.Zmodule_isComNzRing.Build R
  RmultA Rmult_comm Rmult_1_l Rmult_plus_distr_r R1_neq_0.

Fact RmultVr (x : R) : x != R0 -> Rmult (Rinv x) x = R1.
Proof. by move=> /eqP x0; rewrite Rinv_l. Qed.

#[export] HB.instance Definition _ :=
  GRing.ComNzRing_isField.Build R RmultVr Rinv_0.

Definition Rleb (x y : R) : bool :=
  if Rle_dec x y is left _ then true else false.

Definition Rltb (x y : R) : bool :=
  if Rlt_dec x y is left _ then true else false.

Lemma RlebP x y : reflect (Rle x y) (Rleb x y).
Proof. by rewrite /Rleb; case: Rle_dec => h; constructor. Qed.

Lemma RltbP x y : reflect (Rlt x y) (Rltb x y).
Proof. by rewrite /Rltb; case: Rlt_dec => h; constructor. Qed.

Fact Rleb0D x y : Rleb R0 x -> Rleb R0 y -> Rleb R0 (Rplus x y).
Proof.
by move=> /RlebP hx /RlebP hy; apply/RlebP; exact: Rplus_le_le_0_compat.
Qed.

Fact Rleb0M x y : Rleb R0 x -> Rleb R0 y -> Rleb R0 (Rmult x y).
Proof. by move=> /RlebP hx /RlebP hy; apply/RlebP; exact: Rmult_le_pos. Qed.

Fact Rleb0_anti x : Rleb R0 x -> Rleb x R0 -> x = R0.
Proof. by move=> /RlebP hx /RlebP hy; exact: Rle_antisym. Qed.

Fact Rsub_ge0 x y : Rleb R0 (Rplus y (Ropp x)) = Rleb x y.
Proof. by apply/RlebP/RlebP => h; Lra.lra. Qed.

Fact Rleb0_total x : Rleb R0 x || Rleb x R0.
Proof.
apply/orP; case: (Rle_or_lt R0 x) => h; [left | right]; apply/RlebP => //.
exact: Rlt_le.
Qed.

Fact RabsN x : Rabs (Ropp x) = Rabs x.
Proof. exact: Rabs_Ropp. Qed.

Fact Rabs_ge0 x : Rleb R0 x -> Rabs x = x.
Proof. by move=> /RlebP h; apply: Rabs_pos_eq. Qed.

Fact Rltb_def x y : Rltb x y = (y != x) && Rleb x y.
Proof.
apply/RltbP/andP => [h|[/eqP ne /RlebP le]]; last by case: le => // e; case: ne.
split; last by apply/RlebP; apply: Rlt_le.
by apply/eqP => e; move: h; rewrite e; exact: Rlt_irrefl.
Qed.

#[export] HB.instance Definition _ := Num.IntegralDomain_isLeReal.Build R
  Rleb0D Rleb0M Rleb0_anti Rsub_ge0 Rleb0_total RabsN Rabs_ge0 Rltb_def.

Module Exports.
HB.reexport.
End Exports.

End RealsStructure.

Export RealsStructure.Exports.

(* ===================================================================== *)
(*  Geometry utilities: bar, barycentered                                *)
(* ===================================================================== *)

Module Geometry.
Section Defs.

Variable F : realFieldType.
Variables d n : nat.

(* def bar(A): return np.sum(A, axis=1)/A.shape[1] *)
Definition bar (A : 'M[F]_(d, n)) : 'rV[F]_d :=
  \row_i ((\sum_j A i j) / n%:R).

(* def barycentered(A):
       bar_A = bar(A)
       return np.array([vec - bar_A for vec in A.T]).T
   The rows of A.T are the points; each gets bar_A subtracted, the list of
   the differences is stacked as rows and the stack is transposed back. *)
Definition barycentered (A : 'M[F]_(d, n)) : 'M[F]_(d, n) :=
  let bar_A := bar A in
  (\matrix_(j < n) (row j A^T - bar_A))^T.

(* The call seen from the caller: the value returned, and the contents of
   the caller's array when the call returns.  The body only reads A:
   np.sum, the subtraction and np.array allocate, A.T is a view that is
   never written. *)
Definition barycentered_call (A : 'M[F]_(d, n)) :
  'M[F]_(d, n) * 'M[F]_(d, n) :=
  (barycentered A, A).

End Defs.
End Geometry.

Import Geometry.

(* ===================================================================== *)
(*  numpy.linalg: the contract of svd, and inv                           *)
(* ===================================================================== *)

Module Numpy.
Section Defs.

Variable F : realFieldType.

(* np.linalg.svd(X) for X of shape (d, k), with the defaults
   full_matrices=True, compute_uv=True, returns (U, Sg, Vh) of shapes
   (d, d), (min(d, k),) and (k, k). *)
Definition svd_result (d k : nat) : Type :=
  ('M[F]_d * 'rV[F]_(minn d k) * 'M[F]_k)%type.

Definition orthogonal (n : nat) (A : 'M[F]_n) : Prop := A *m A^T = 1%:M.

(* The singular values laid out on the main diagonal of a (d, k) array. *)
Definition sigma_mx (d k : nat) (Sg : 'rV[F]_(minn d k)) : 'M[F]_(d, k) :=
  pid_mx (minn d k) *m diag_mx Sg *m pid_mx (minn d k).

(* Non-negative entries in descending order. *)
Definition descending (r : nat) (Sg : 'rV[F]_r) : Prop :=
  (forall i, 0 <= Sg 0 i) /\ (forall i j : 'I_r, (i <= j)%N -> Sg 0 j <= Sg 0 i).

(* What numpy documents about the triple: U and Vh are orthogonal, the
   singular values are non-negative and sorted in descending order, and
   X = U @ Sigma @ Vh. *)
Definition is_svd (d k : nat) (X : 'M[F]_(d, k)) (r : svd_result d k) : Prop :=
  let '(U, Sg, Vh) := r in
  [/\ orthogonal U, orthogonal Vh, descending Sg
    & X = U *m sigma_mx Sg *m Vh].

(* Symmetric positive semi-definite. *)
Definition psd (n : nat) (A : 'M[F]_n) : Prop :=
  A^T = A /\ forall v : 'rV[F]_n, 0 <= (v *m A *m v^T) 0 0.

(* np.linalg.inv(A): the inverse of an invertible A.  LinAlgError is raised
   when the factorisation of A meets a zero pivot, which over an exact
   field happens on the singular matrices: None.  In floating point,
   rounding can hide the zero pivot of a singular array; on the zero array
   it cannot. *)
Definition inv (n : nat) (A : 'M[F]_n) : option 'M[F]_n :=
  if A \in unitmx then Some (invmx A) else None.

End Defs.
End Numpy.

Import Numpy.

(* ===================================================================== *)
(*  Kernel-projection builder and the PSD ellipsoid fit                  *)
(* ===================================================================== *)

Module Projection.
Section Defs.

Variable F : realFieldType.
Variable svd : forall d k : nat, 'M[F]_(d, k) -> svd_result F d k.

(* Vx[:rank] with rank = min(d, k): the leading rank rows of Vx. *)
Definition leading_rows (d k : nat) (Vx : 'M[F]_k) : 'M[F]_(minn d k, k) :=
  rowsub (widen_ord (geq_minr d k)) Vx.

(* def ortho_proj_ker(X):
       Ux, Sigmax, Vx = np.linalg.svd(X)
       rank = Sigmax.shape[0]
       ker = Vx[:rank]
       proj = ker.T @ ker
       return proj *)
Definition ortho_proj_ker (d k : nat) (X : 'M[F]_(d, k)) : 'M[F]_k :=
  let '(Ux, Sigmax, Vx) := svd X in
  let ker := leading_rows d Vx in
  let proj := ker^T *m ker in
  proj.

(* np.diag(Sg) for the min(d, k) singular values of a (d, k) array with
   d <= k: a (d, d) array. *)
Definition np_diag (d k : nat) (le_dk : (d <= k)%N) (Sg : 'rV[F]_(minn d k)) :
  'M[F]_d :=
  castmx (minn_idPl le_dk, minn_idPl le_dk) (diag_mx Sg).

(* Lx = Ux @ np.diag(Sigma_x), with Ux, Sigma_x, _ = np.linalg.svd(X) *)
Definition svd_factor (d k : nat) (le_dk : (d <= k)%N) (X : 'M[F]_(d, k)) :
  'M[F]_d :=
  let '(Ux, Sigma_x, _) := svd X in Ux *m np_diag le_dk Sigma_x.

(* def psd_fit(X, Y):
       Ux, Sigma_x, _ = np.linalg.svd(X)
       Uy, Sigma_y, _ = np.linalg.svd(Y)
       Lx = Ux @ np.diag(Sigma_x)
       Ly = Uy @ np.diag(Sigma_y)
       Lxy = Lx.T @ Ly
       W, Sigma, V = np.linalg.svd(Lxy)
       P = W @ np.diag(Sigma) @ W.T
       Lx_inv = np.linalg.inv(Lx)
       P = Lx_inv.T @ P @ Lx_inv
       return P
   Ux @ np.diag(Sigma_x) multiplies a (d, d) by a (min(d,k), min(d,k))
   array and raises unless d <= k; that failure, and an exception of
   np.linalg.inv, is None. *)
Definition psd_fit (d k : nat) (X Y : 'M[F]_(d, k)) : option 'M[F]_d :=
  if @idP (d <= k)%N is ReflectT le_dk then
    let Lx := svd_factor le_dk X in
    let Ly := svd_factor le_dk Y in
    let Lxy := Lx^T *m Ly in
    let '(W, Sigma, V) := svd Lxy in
    let P := W *m np_diag (leqnn d) Sigma *m W^T in
    if inv Lx is Some Lx_inv then Some (Lx_inv^T *m P *m Lx_inv) else None
  else None.

End Defs.
End Projection.

Import Projection.

(* ===================================================================== *)
(*  Rectangular diagonal arrays, on which a singular value decomposition  *)
(*  can be read off: the inputs of the concrete runs.                    *)
(* ===================================================================== *)

Module Diagonal.
Section Defs.

Variable F : realFieldType.

(* The main diagonal of a (d, k) array. *)
Definition diag_of (d k : nat) (X : 'M[F]_(d, k)) : 'rV[F]_(minn d k) :=
  \row_i X (widen_ord (geq_minl d k) i) (widen_ord (geq_minr d k) i).

(* The decomposition U = I, Vh = I, S = main diagonal: it is a singular
   value decomposition of X when X is rectangular diagonal with a
   non-negative, descending diagonal. *)
Definition svd_diag (d k : nat) (X : 'M[F]_(d, k)) : svd_result F d k :=
  (1%:M, diag_of X, 1%:M).

(* r, r-1, ..., 1 *)
Definition stairs (r : nat) : 'rV[F]_r := \row_i (r - i)%:R.

End Defs.
End Diagonal.

Import Diagonal.

(* ===================================================================== *)
(*  The worker pool: multiprocess.Pool(...).map                          *)
(* ===================================================================== *)

Module Pool.
Section Defs.

(* rng: the state of numpy's global random generator in one process.
   A task reads and writes the generator of the worker that runs it. *)
Variables rng res : Type.
Variable task : nat -> rng -> res * rng.

(* What the pool does, one action at a time: worker w runs task t to
   completion, or worker w is replaced by a fresh process whose generator
   starts in state g (maxtasksperchild recycles workers). *)
Inductive action : Type :=
  | Run (w t : nat)
  | Respawn (w : nat) (g : rng).

Record pool : Type := MkPool {
  generators : nat -> rng;        (* per worker *)
  slots : nat -> option res       (* per task: its result, once completed *)
}.

Definition upd (A : Type) (f : nat -> A) (i : nat) (x : A) : nat -> A :=
  fun j => if j == i then x else f j.

Definition act (p : pool) (a : action) : pool :=
  match a with
  | Run w t =>
      let (r, g) := task t (generators p w) in
      MkPool (upd (generators p) w g) (upd (slots p) t (Some r))
  | Respawn w g => MkPool (upd (generators p) w g) (slots p)
  end.

Definition tasks (sched : seq action) : seq nat :=
  flatten [seq (if a is Run _ t then [:: t] else [::]) | a <- sched].

Definition workers (sched : seq action) : seq nat :=
  [seq (match a with Run w _ => w | Respawn w _ => w end) | a <- sched].

(* A schedule of pool.map(f, range(n)) on a pool of size workers: every
   task of range(n) is run exactly once, by one of the workers, in any
   order, with any recycling in between. *)
Definition schedule_of (size n : nat) (sched : seq action) : bool :=
  perm_eq (tasks sched) (iota 0 n) && all (fun w => w < size)%N (workers sched).

(* pool.map blocks until the pool is done and returns the results in the
   order of the tasks, not of their completion. *)
Definition map (init : nat -> rng) (sched : seq action) (n : nat) : seq res :=
  let p := foldl act (MkPool init (fun => None)) sched in
  pmap (slots p) (iota 0 n).

End Defs.
End Pool.

(* ===================================================================== *)
(*  granni_point_clouds                                                  *)
(* ===================================================================== *)

Module Granni.

Inductive error : Type :=
  | AssertDimX              (* assert(dim == X.shape[0] == 3) *)
  | AssertDimY              (* assert(dim == Y.shape[0] == 3) *)
  | AssertCardinality       (* assert(num_x <= num_y) *)
  | LinAlgErrorSvd          (* np.linalg.svd on a 1-D array *)
  | ValueErrorAssignment    (* linear_sum_assignment on a 0-D array *)
  | LinAlgErrorSingular.    (* np.linalg.inv: "Singular matrix" *)

(* The steps of the core, logged when they start. *)
Inductive step : Type :=
  | Centering
  | Projection
  | Padding
  | Trial (i : nat)
  | Aggregation
  | Assignment
  | Estimation.

(* A run: the steps started so far, and an exception or a value. *)
Definition run (A : Type) : Type := (seq step * (error + A))%type.

Definition ret (A : Type) (a : A) : run A := ([::], inr a).
Definition raise (A : Type) (e : error) : run A := ([::], inl e).
Definition tick (s : step) : run unit := ([:: s], inr tt).
Definition bind (A B : Type) (m : run A) (f : A -> run B) : run B :=
  match m with
  | (log, inl e) => (log, inl e)
  | (log, inr a) => let (log', r) := f a in (log ++ log', r)
  end.
Definition assert (b : bool) (e : error) : run unit :=
  if b then ret tt else raise unit e.

Notation "x <- m ;; k" := (bind m (fun x => k))
  (at level 61, m at next level, right associativity).
Notation "m ;; k" := (bind m (fun _ => k))
  (at level 61, right associativity).

Section Defs.

Variable F : realFieldType.

(* The library routines the pipeline calls. *)
Variable svd : forall d k : nat, 'M[F]_(d, k) -> svd_result F d k.
Variable exp : F -> F.
Variable rng : Type.
Variable np_random_seed : nat -> rng.
(* opt.quadratic_assignment(A, B, method="faq", options={'maximize': True,
   'P0': 'randomized', 'tol': 1e-3}): reads and advances the global
   generator, returns sol['col_ind']. *)
Variable quadratic_assignment :
  forall m : nat, 'M[F]_m -> 'M[F]_m -> rng -> ('I_m -> 'I_m) * rng.
(* opt.linear_sum_assignment(mat, maximize=True): (row_ind, col_ind). *)
Variable linear_sum_assignment :
  forall m : nat, 'M[F]_m -> ('I_m -> 'I_m) * ('I_m -> 'I_m).

Definition dim : nat := 3.

(* Px = np.block([[Px, oo.T],[oo, o]]) with
   o  = np.zeros((num_y-num_x, num_y-num_x))
   oo = np.zeros((num_y-num_x, num_x)) *)
Definition pad (num_x num_y : nat) (le_xy : (num_x <= num_y)%N)
    (Px : 'M[F]_num_x) : 'M[F]_num_y :=
  let o : 'M[F]_(num_y - num_x) := 0 in
  let oo : 'M[F]_(num_y - num_x, num_x) := 0 in
  castmx (subnKC le_xy, subnKC le_xy) (block_mx Px oo^T oo o).

Section Matching.

Variable num_y : nat.
Variables Px Py : 'M[F]_num_y.

Definition I : 'M[F]_num_y := 1%:M.      (* np.identity(num_y) *)

(* def f_opt(i):
       np.random.seed(i)
       sol = opt.quadratic_assignment(Px, Py, ...)
       ind = sol['col_ind']
       s = I[ind]
       weight = np.exp(-1000.0*(np.trace(Px @ s @ Py @ s.T) - dim)**2)
       return weight, s, i
   run in a worker whose generator is in state g. *)
Definition f_opt (i : nat) (g : rng) : (F * 'M[F]_num_y * nat) * rng :=
  let g := np_random_seed i in
  let (ind, g) := quadratic_assignment Px Py g in
  let s := rowsub ind I in
  let weight := exp (- 1000%:R * (\tr (Px *m s *m Py *m s^T) - dim%:R) ^+ 2) in
  ((weight, s, i), g).

(* mat = sum([v[0]*v[1] for v in vals]): Python's sum adds the items to 0
   from left to right. *)
Definition aggregate (vals : seq (F * 'M[F]_num_y * nat)) : 'M[F]_num_y :=
  foldl +%R 0 [seq v.1.1 *: v.1.2 | v <- vals].

End Matching.

Section Core.

Variables dx num_x dy num_y : nat.
Hypothesis le_xy : (num_x <= num_y)%N.
Variable X : 'M[F]_(dx, num_x).
Variable Y : 'M[F]_(dy, num_y).

Definition Xc := barycentered X.
Definition Yc := barycentered Y.
Definition Px := pad le_xy (ortho_proj_ker svd Xc).
Definition Py := ortho_proj_ker svd Yc.

(* vals = pool.map(f_opt, range(n_iter)) *)
Definition trials (init : nat -> rng) (sched : seq (Pool.action rng))
    (n_iter : nat) : seq (F * 'M[F]_num_y * nat) :=
  Pool.map (f_opt Px Py) init sched n_iter.

(* Y[:, col_ind][:, :num_x] *)
Definition matched (col_ind : 'I_num_y -> 'I_num_y) : 'M[F]_(dy, num_x) :=
  colsub (widen_ord le_xy) (colsub col_ind Yc).

(* with mp.Pool(CPU_COUNT, maxtasksperchild=int(100)) as pool:
       vals = pool.map(f_opt, range(n_iter))
   The trials start in the order of the schedule. *)
Definition dispatch (init : nat -> rng) (sched : seq (Pool.action rng))
    (n_iter : nat) : run (seq (F * 'M[F]_num_y * nat)) :=
  ([seq Trial t | t <- Pool.tasks sched], inr (trials init sched n_iter)).

(* mat, and the col_ind of linear_sum_assignment(mat, maximize=True) *)
Definition aggregated (init : nat -> rng) (sched : seq (Pool.action rng))
    (n_iter : nat) : 'M[F]_num_y :=
  aggregate (trials init sched n_iter).

Definition correspondence (init : nat -> rng) (sched : seq (Pool.action rng))
    (n_iter : nat) : 'I_num_y -> 'I_num_y :=
  (linear_sum_assignment (aggregated init sched n_iter)).2.

(* Lines 209-237, once the three assertions have passed:
       X = barycentered(X)
       Y = barycentered(Y)
       Px = ortho_proj_ker(X)
       ...
       Px = np.block([[Px, oo.T],[oo, o]])
       Py = ortho_proj_ker(Y)
       I = np.identity(num_y)
       ...
       vals = pool.map(f_opt, range(n_iter))
       mat = sum([v[0]*v[1] for v in vals])
       row_ind, col_ind = opt.linear_sum_assignment(mat, maximize=True)
       L0 = Y[:, col_ind][:, :num_x] @ X.T @ np.linalg.inv(X @ X.T)
       return L, L0 *)
Definition granni_core (L : 'M[F]_dim) (init : nat -> rng)
    (sched : seq (Pool.action rng)) (n_iter : nat) :
    run ('M[F]_dim * 'M[F]_(dy, dx)) :=
  tick Centering ;;
  let X := Xc in
  let Y := Yc in
  tick Projection ;;
  (* centering a cloud without points leaves a 1-D array of shape (0,),
     which np.linalg.svd rejects *)
  assert (0 < num_x)%N LinAlgErrorSvd ;;
  tick Padding ;;
  vals <- dispatch init sched n_iter ;;
  tick Aggregation ;;
  let mat := aggregate vals in
  tick Assignment ;;
  (* sum([]) is the int 0, which linear_sum_assignment rejects *)
  assert (~~ nilp vals) ValueErrorAssignment ;;
  let (row_ind, col_ind) := linear_sum_assignment mat in
  tick Estimation ;;
  if inv (X *m X^T) is Some G then ret (L, matched col_ind *m X^T *m G)
  else raise _ LinAlgErrorSingular.

End Core.

(* def granni_point_clouds(mesh_1, mesh_2, size_1, size_2, cond, n_iter,
                           verbose)
   from line 198 on.  Lines 185-196 belong to the collaborators: L is the
   matrix rand_mat_cond returned, X and Y are the transposed point arrays
   of the two Poisson-disk samples.  init and sched say how the pool runs
   the trials.  The printing under verbose is left out. *)
Definition granni_point_clouds (dx num_x dy num_y : nat) (L : 'M[F]_dim)
    (X : 'M[F]_(dx, num_x)) (Y : 'M[F]_(dy, num_y))
    (init : nat -> rng) (sched : seq (Pool.action rng)) (n_iter : nat) :
    run ('M[F]_dim * 'M[F]_(dy, dx)) :=
  assert ((dim == dx) && (dx == 3)) AssertDimX ;;
  assert ((dim == dy) && (dy == 3)) AssertDimY ;;
  if @idP (num_x <= num_y)%N is ReflectT le_xy
  then granni_core le_xy X Y L init sched n_iter
  else raise _ AssertCardinality.

End Defs.
End Granni.

Import Granni.

(* ===================================================================== *)
(*  Concrete runs                                                        *)
(* ===================================================================== *)

Module Example.

Import Pool.

Definition R : realFieldType := Rdefinitions.R.

(* np.exp on the reals *)
Definition exp : R -> R := Rtrigo_def.exp.

Section Clouds.

Variable F : realFieldType.

(* The vertices (1,-1,-1), (-1,1,-1), (-1,-1,1), (1,1,1) of a regular
   tetrahedron, one per column: [2 I - ones ones^T | ones]. *)
Definition ones : 'cV[F]_3 := const_mx 1.
Definition tetrahedron : 'M[F]_(3, 3 + 1) :=
  row_mx (2%:R%:M - ones *m ones^T) ones.

(* A singular value decomposition of the tetrahedron, I (2, 2, 2) Vh, with
   the rows of tetrahedron / 2 and (1, 1, 1, 1) / 2 as the rows of Vh. *)
Definition tetrahedron_svd : svd_result F 3 (3 + 1) :=
  (1%:M, const_mx 2%:R, 2%:R^-1 *: col_mx tetrahedron (const_mx 1)).

(* Stand-in for np.linalg.svd: the decomposition above on (3, 4) arrays,
   where the runs below only pass the tetrahedron, and the diagonal one
   elsewhere. *)
Definition svd0 (d k : nat) : 'M[F]_(d, k) -> svd_result F d k :=
  match d, k return 'M[F]_(d, k) -> svd_result F d k with
  | 3, 4 => fun _ => tetrahedron_svd
  | _, _ => fun A => svd_diag A
  end.

(* Twice the point (1, 1, 1), and once. *)
Definition pair : 'M[F]_(3, 2) := const_mx 1.
Definition single : 'M[F]_(3, 1) := const_mx 1.

(* The 2 x 3 arrays [[2, 0, 0], [0, 1, 0]] and [[4, 0, 0], [0, 1, 0]]. *)
Definition X23 : 'M[F]_(2, 3) := sigma_mx (stairs F (minn 2 3)).
Definition Y23 : 'M[F]_(2, 3) :=
  sigma_mx (\row_j (stairs F (minn 2 3) 0 j * stairs F (minn 2 3) 0 j)).

(* The third unit vector of F^3. *)
Definition e3 : 'cV[F]_3 := delta_mx ord_max 0.

(* Stand-ins for scipy: the generator state is a counter, every
   assignment is the identity, which is optimal when both clouds are the
   same. *)
Definition rng : Type := nat.
Definition np_random_seed (i : nat) : rng := i.
Definition quadratic_assignment (m : nat) (A B : 'M[F]_m) (g : rng) :
  ('I_m -> 'I_m) * rng := (id, g.+1).
Definition linear_sum_assignment (m : nat) (mat : 'M[F]_m) :
  ('I_m -> 'I_m) * ('I_m -> 'I_m) := (id, id).

End Clouds.

Definition svd : forall d k : nat, 'M[R]_(d, k) -> svd_result R d k :=
  @svd0 R.

Definition granni (dx num_x dy num_y : nat) :=
  @granni_point_clouds R svd exp rng np_random_seed
    (@quadratic_assignment R) (@linear_sum_assignment R) dx num_x dy num_y.

(* One worker runs trial 0 then trial 1. *)
Definition in_order : seq (action rng) := [:: Run rng 0 0; Run rng 0 1]%N.
(* Two workers: trial 1 completes first on worker 1, which is recycled,
   then trial 0 on worker 0. *)
Definition out_of_order : seq (action rng) :=
  [:: Run rng 1 1; Respawn 1 (7 : rng); Run rng 0 0]%N.

Definition idle : nat -> rng := fun _ => 0%N.
Definition busy : nat -> rng := fun w => (w + 40)%N.

Definition le44 : (3 + 1 <= 3 + 1)%N := leqnn (3 + 1).

End Example.

(* ===================================================================== *)
(*  Homogeneous transformations: granni_point_clouds, granni_test        *)
(* ===================================================================== *)

Module Transform.
Section Defs.

Variable F : realFieldType.

(* np.c_[A, v]: v appended to A as a last column. *)
Definition np_c (m n : nat) (A : 'M[F]_(m, n)) (v : 'cV[F]_m) :
  'M[F]_(m, n + 1) :=
  row_mx A v.

(* np.c_[np.c_[L, [0,0,0]].T, [0,0,0,1]].T *)
Definition homogeneous (L : 'M[F]_3) : 'M[F]_(3 + 1) :=
  (np_c (np_c L 0)^T (col_mx 0 1%:M))^T.

(* granni_test, from the pair granni_point_clouds returned:
       transformation = np.linalg.inv(L0) @ L
       ...
       transformation = np.c_[np.c_[transformation, [0,0,0]].T, [0,0,0,1]].T
   An exception of np.linalg.inv is None. *)
Definition preimage_transformation (L L0 : 'M[F]_3) : option 'M[F]_(3 + 1) :=
  if inv L0 is Some L0_inv then
    let transformation := L0_inv *m L in
    Some (homogeneous transformation)
  else None.

End Defs.
End Transform.

Import Transform.

(* ===================================================================== *)
(*  rand_mat_cond                                                        *)
(* ===================================================================== *)

Module Random.
Section Defs.

Variable F : realFieldType.

(* The library routines rand_mat_cond calls. *)
Variables log exp : F -> F.
(* np.arange(start, stop, step); None when it raises. *)
Variable arange : F -> F -> F -> option (seq F).
(* np.linalg.qr on a square array, in either mode: (Q, R). *)
Variable qr : forall n : nat, 'M[F]_n -> 'M[F]_n * 'M[F]_n.
Variable rng : Type.
(* np.random.rand(n, n) and np.random.normal(0.0, 1.0, (n, n)) read and
   advance the global generator. *)
Variable np_random_rand : forall n : nat, rng -> 'M[F]_n * rng.
Variable np_random_normal : forall n : nat, rng -> 'M[F]_n * rng.

Definition upper_triangular (n : nat) (R : 'M[F]_n) : Prop :=
  forall i j : 'I_n, (j < i)%N -> R i j = 0.

(* What numpy documents about the pair: Q is orthogonal, R is upper
   triangular, and A = Q @ R. *)
Definition is_qr (n : nat) (A : 'M[F]_n) (r : 'M[F]_n * 'M[F]_n) : Prop :=
  let (Q, R) := r in [/\ orthogonal Q, upper_triangular R & A = Q *m R].

(* np.arange(-log_cond/4.0, log_cond * (dim + 1)/(4 * (dim - 1)),
             log_cond/(2.0*(dim-1))) *)
Definition exp_vec (dim : nat) (cond : F) : option (seq F) :=
  let log_cond := log cond in
  arange (- log_cond / 4%:R)
         (log_cond * (dim%:R + 1) / (4%:R * (dim%:R - 1)))
         (log_cond / (2%:R * (dim%:R - 1))).

(* The values np.arange(start, stop, step) starts with: start,
   start + step, start + 2 step, ... *)
Definition progression (start step : F) (n : nat) : seq F :=
  [seq start + i%:R * step | i <- iota 0 n].

(* np.diag([1]*(dim-1)+[-1]) *)
Definition flip_last (dim : nat) : 'M[F]_dim :=
  diag_mx (\row_(i < dim) (if i.+1 == dim then -1 else 1)).

(* (np.random.rand(dim,dim) - 5.0) * 200 *)
Definition scaled (dim : nat) (A : 'M[F]_dim) : 'M[F]_dim :=
  200%:R *: (A - const_mx 5%:R).

(* def rand_mat_cond(dim=3, cond=5.0):
       log_cond = np.log(cond)
       exp_vec = np.arange(...)
       D = np.diag(np.exp(exp_vec[:dim]))
       U, _ = np.linalg.qr((np.random.rand(dim,dim) - 5.0) * 200)
       V, _ = np.linalg.qr((np.random.rand(dim,dim) - 5.0) * 200)
       P = U @ D @ V.T
       P = P @ P.T
       seed = np.random.normal(0.0, 1.0, (dim,dim))
       O, _ = np.linalg.qr(seed, mode='complete')
       if np.linalg.det(O) < 0:
           O = O @ np.diag([1]*(dim-1)+[-1])
       M = P @ O
       return M
   called with the generator in state g; the result comes with the state
   in which the call leaves the generator.  With dim = 1 the step of
   np.arange is a division by zero, which np.arange rejects.  np.diag of
   a list of fewer than dim numbers is too small for U @ D. *)
Definition rand_mat_cond (dim : nat) (cond : F) (g : rng) :
    option 'M[F]_dim * rng :=
  if dim == 1%N then (None, g) else
  if exp_vec dim cond is Some exp_vec then
    let v := take dim exp_vec in
    let D : 'M[F]_dim := diag_mx (\row_i exp (nth 0 v i)) in
    let (A, g) := np_random_rand dim g in
    let (U, _) := qr (scaled A) in
    let (B, g) := np_random_rand dim g in
    let (V, _) := qr (scaled B) in
    if size v == dim then
      let P := U *m D *m V^T in
      let P := P *m P^T in
      let (seed, g) := np_random_normal dim g in
      let (O, _) := qr seed in
      let O := if \det O < 0 then O *m flip_last dim else O in
      let M := P *m O in
      (Some M, g)
    else (None, g)
  else (None, g).

End Defs.
End Random.

Import Random.

(* ===================================================================== *)
(*  Further concrete inputs                                              *)
(* ===================================================================== *)

Module Scan.

Import Example.

Section Clouds.

Variable F : realFieldType.

(* The tetrahedron with its vertices listed in reverse order, and the
   tetrahedron scaled by 2 with its vertices listed in reverse order. *)
Definition relabelled : 'M[F]_(3, 3 + 1) :=
  colsub (@rev_ord (3 + 1)) (tetrahedron F).
Definition scan : 'M[F]_(3, 3 + 1) :=
  colsub (@rev_ord (3 + 1)) (2%:R%:M *m tetrahedron F).

(* Their singular value decompositions I (2, 2, 2) Vh and I (4, 4, 4) Vh,
   with the rows of Vh those of the decomposition of the tetrahedron in
   reverse column order. *)
Definition relabelled_svd : svd_result F 3 (3 + 1) :=
  (1%:M, const_mx 2%:R, 2%:R^-1 *: col_mx relabelled (const_mx 1)).
Definition scan_svd : svd_result F 3 (3 + 1) :=
  (1%:M, const_mx 4%:R, 2%:R^-1 *: col_mx relabelled (const_mx 1)).

(* Stand-in for np.linalg.svd that knows the three clouds. *)
Definition svd1 (d k : nat) : 'M[F]_(d, k) -> svd_result F d k :=
  match d, k return 'M[F]_(d, k) -> svd_result F d k with
  | 3, 4 => fun A =>
      if A == tetrahedron F then tetrahedron_svd F
      else if A == relabelled then relabelled_svd
      else scan_svd
  | _, _ => fun A => svd_diag A
  end.

(* Stand-ins for scipy that return the reverse order, which is the true
   correspondence between the tetrahedron and its scan. *)
Definition quadratic_assignment (m : nat) (A B : 'M[F]_m) (g : rng) :
  ('I_m -> 'I_m) * rng := (@rev_ord m, g.+1).
Definition linear_sum_assignment (m : nat) (mat : 'M[F]_m) :
  ('I_m -> 'I_m) * ('I_m -> 'I_m) := (id, @rev_ord m).

(* The 2 x 2 array [[2, 0], [0, 1]]. *)
Definition stretch : 'M[F]_2 := diag_mx (stairs F 2).

End Clouds.

Definition svd : forall d k : nat, 'M[R]_(d, k) -> svd_result R d k :=
  @svd1 R.

Definition granni (dx num_x dy num_y : nat) :=
  @granni_point_clouds R svd exp rng np_random_seed
    (@quadratic_assignment R) (@linear_sum_assignment R) dx num_x dy num_y.

End Scan.

Module Draws.

Import Example.

(* np.log on the reals *)
Definition log : R -> R := Rpower.ln.

(* The reflection Q = N / 29 with N = [[-20, -21], [-21, 20]], and the
   upper triangular [[42, 42], [0, 1]]. *)
Definition N : 'M[R]_2 :=
  \matrix_(i, j) (if i == j :> nat
                  then (if i == 0%N :> nat then - 20%:R else 20%:R)
                  else - 21%:R).
Definition Q : 'M[R]_2 := 29%:R^-1 *: N.
Definition upper : 'M[R]_2 :=
  \matrix_(i, j) (if i == 0%N :> nat then 42%:R
                  else if j == 0%N :> nat then 0 else 1).

(* The array [[0.8, 0.695], [0.59, 0.69]], which (rand - 5.0) * 200 turns
   into N [[42, 42], [0, 1]] = [[-840, -861], [-882, -862]]. *)
Definition uniform : 'M[R]_2 := const_mx 5%:R + 200%:R^-1 *: (N *m upper).

(* Stand-ins for numpy on (2, 2) arrays: every draw of np.random.rand is
   the array above, every draw of np.random.normal is Q, np.linalg.qr
   returns Q and Q^T A, which is a QR factorisation of both, and
   np.arange returns two values. *)
Definition arange (start stop step : R) : option (seq R) :=
  Some (progression start step 2).
Definition qr (n : nat) : 'M[R]_n -> 'M[R]_n * 'M[R]_n :=
  match n return 'M[R]_n -> 'M[R]_n * 'M[R]_n with
  | 2 => fun A => (Q, Q^T *m A)
  | _ => fun A => (1%:M, A)
  end.
Definition rng : Type := nat.
Definition np_random_rand (n : nat) (g : rng) : 'M[R]_n * rng :=
  (match n return 'M[R]_n with 2 => uniform | _ => const_mx 2%:R^-1 end,
   g.+1).
Definition np_random_normal (n : nat) (g : rng) : 'M[R]_n * rng :=
  (match n return 'M[R]_n with 2 => Q | _ => 1%:M end, g.+1).

Definition rand_mat_cond :=
  Random.rand_mat_cond log exp arange qr np_random_rand np_random_normal.

End Draws.

(* ===================================================================== *)
(*  Lemmas                                                               *)
(* ===================================================================== *)

Section GeometryLemmas.

Variable F : realFieldType.
Variables d n : nat.
Implicit Types A : 'M[F]_(d, n).

Lemma barycenteredE A i j : barycentered A i j = A i j - bar A 0 i.
Proof. by rewrite /barycentered !mxE. Qed.

Lemma barE A i : bar A 0 i = (\sum_j A i j) / n%:R.
Proof. by rewrite /bar mxE. Qed.

Lemma bar_barycentered A : (0 < n)%N -> bar (barycentered A) = 0.
Proof.
move=> n_gt0; apply/rowP => i; rewrite barE [RHS]mxE.
under eq_bigr do rewrite barycenteredE.
rewrite sumrB sumr_const card_ord barE -mulr_natr divfK ?subrr ?mul0r //.
by rewrite pnatr_eq0 -lt0n.
Qed.

Lemma barycentered_bar0 A : bar A = 0 -> barycentered A = A.
Proof.
by move=> bar0; apply/matrixP => i j; rewrite barycenteredE bar0 mxE subr0.
Qed.

End GeometryLemmas.

Section ProjectionLemmas.

Variable F : realFieldType.

Lemma orthogonal_tr n (A : 'M[F]_n) : orthogonal A -> A^T *m A = 1%:M.
Proof. by move=> /mulmx1C. Qed.

Lemma orthogonal_unit n (A : 'M[F]_n) : orthogonal A -> A \in unitmx.
Proof. by case/mulmx1_unit. Qed.

Section Shape.

Variables d k : nat.
Let r := minn d k.

Lemma leading_rowsE (Vx : 'M[F]_k) : leading_rows d Vx = pid_mx r *m Vx.
Proof.
apply/matrixP => i j; rewrite !mxE (bigD1 (widen_ord (geq_minr d k) i)) //=.
rewrite !mxE eqxx ltn_ord mul1r big1 ?addr0 // => l ne_li.
rewrite !mxE -val_eqE /= eq_sym in ne_li *.
by rewrite (negbTE ne_li) mul0r.
Qed.

Lemma pid_rowK : (pid_mx r : 'M[F]_(r, k)) *m (pid_mx r)^T = 1%:M.
Proof.
rewrite tr_pid_mx mul_pid_mx minnn /r.
by rewrite (minn_idPr (geq_minr d k)) pid_mx_1.
Qed.

Lemma pid_colK : (pid_mx r : 'M[F]_(d, r))^T *m pid_mx r = 1%:M.
Proof.
rewrite tr_pid_mx mul_pid_mx minnn /r.
by rewrite (minn_idPr (geq_minl d k)) pid_mx_1.
Qed.

End Shape.
End ProjectionLemmas.

Section Projector.

Variable F : realFieldType.
Variable svd : forall d k : nat, 'M[F]_(d, k) -> svd_result F d k.
Variables d k : nat.
Variable X : 'M[F]_(d, k).
Hypothesis svdX : is_svd X (svd X).

Let r := minn d k.
Let U : 'M[F]_d := (svd X).1.1.
Let Sg : 'rV[F]_r := (svd X).1.2.
Let Vh : 'M[F]_k := (svd X).2.
Let K : 'M[F]_(r, k) := leading_rows d Vh.
Let P : 'M[F]_k := ortho_proj_ker svd X.

Lemma ortho_proj_kerE : P = K^T *m K.
Proof.
by rewrite /P /K /Vh /ortho_proj_ker; case: (svd X) => [[? ?] ?] /=.
Qed.

Lemma svd_orthoU : orthogonal U.
Proof. by move: svdX; rewrite /U; case: (svd X) => [[? ?] ?] []. Qed.

Lemma svd_orthoV : orthogonal Vh.
Proof. by move: svdX; rewrite /Vh; case: (svd X) => [[? ?] ?] []. Qed.

Lemma svd_nonneg i : 0 <= Sg 0 i.
Proof. by move: svdX i; rewrite /Sg; case: (svd X) => [[? ?] ?] [_ _ []]. Qed.

Lemma svd_factorization : X = U *m pid_mx r *m diag_mx Sg *m K.
Proof.
rewrite /K leading_rowsE !mulmxA.
move: svdX; rewrite /U /Sg /Vh; case: (svd X) => [[? ?] ?] [_ _ _ ->].
by rewrite /sigma_mx !mulmxA.
Qed.

Lemma leading_rows_orthonormal : K *m K^T = 1%:M.
Proof.
rewrite /K leading_rowsE trmx_mul mulmxA -(mulmxA _ Vh) svd_orthoV mulmx1.
exact: pid_rowK.
Qed.

Lemma proj_sym : P^T = P.
Proof. by rewrite ortho_proj_kerE trmx_mul trmxK. Qed.

Lemma proj_idem : P *m P = P.
Proof.
by rewrite ortho_proj_kerE mulmxA -(mulmxA _ K) leading_rows_orthonormal mulmx1.
Qed.

Lemma proj_rank : \rank P = r.
Proof.
have freeK : row_free K.
  by apply/row_freeP; exists K^T; exact: leading_rows_orthonormal.
by rewrite ortho_proj_kerE mxrankMfree // mxrank_tr; apply/eqP.
Qed.

Lemma proj_trace : \tr P = r%:R.
Proof.
by rewrite ortho_proj_kerE mxtrace_mulC leading_rows_orthonormal mxtrace1.
Qed.

(* P fixes the rows of X: it projects onto the row space. *)
Lemma proj_rows : P *m X^T = X^T.
Proof.
rewrite {1 2}svd_factorization ortho_proj_kerE !trmx_mul -!mulmxA.
by rewrite (mulmxA K) leading_rows_orthonormal mul1mx.
Qed.

Lemma svd_full_rank : \rank X = d -> diag_mx Sg \in unitmx.
Proof.
move=> rkX; rewrite -row_full_unit /row_full eqn_leq rank_leq_row /=.
have le_rd : (r <= d)%N by exact: geq_minl.
have: (d <= \rank (diag_mx Sg))%N.
  rewrite -{1}rkX svd_factorization.
  by apply: leq_trans (mxrankM_maxl _ _) _; apply: mxrankM_maxr.
by move=> le_d; apply: leq_trans le_d.
Qed.

(* On a full-rank X, P annihilates the null space of X. *)
Lemma proj_null (v : 'cV[F]_k) : \rank X = d -> X *m v = 0 -> P *m v = 0.
Proof.
move=> /svd_full_rank unitS Xv0.
have /(congr1 (mulmx (invmx (diag_mx Sg) *m (pid_mx r)^T *m U^T))) := Xv0.
rewrite mulmx0 {1}svd_factorization -!mulmxA (mulmxA U^T).
rewrite (orthogonal_tr svd_orthoU) mul1mx (mulmxA (pid_mx r)^T).
rewrite (mulmxA ((pid_mx r)^T *m _)) pid_colK mul1mx.
rewrite (mulmxA (invmx _)) mulVmx // mul1mx => Kv0.
by rewrite ortho_proj_kerE -mulmxA Kv0 mulmx0.
Qed.

End Projector.

Section Casts.

Variable F : realFieldType.

Lemma castmx_diagE r d (e : r = d) (Sg : 'rV[F]_r) :
  castmx (e, e) (diag_mx Sg) =
  (pid_mx r : 'M_(d, r)) *m diag_mx Sg *m (pid_mx r : 'M_(r, d)).
Proof. by case: _ / e; rewrite castmx_id pid_mx_1 mul1mx mulmx1. Qed.

Lemma castmx_diag_row r d (e : r = d) (Sg : 'rV[F]_r) :
  castmx (e, e) (diag_mx Sg) = diag_mx (castmx (erefl, e) Sg).
Proof. by case: _ / e; rewrite !castmx_id. Qed.

Lemma castmx_row_ge0 r d (e : r = d) (Sg : 'rV[F]_r) :
  (forall i, 0 <= Sg 0 i) -> forall i, 0 <= castmx (erefl 1%N, e) Sg 0 i.
Proof. by case: _ / e => Sg_ge0 i; rewrite castmx_id. Qed.

Lemma castmx_unit r d (e : r = d) (A : 'M[F]_r) :
  (castmx (e, e) A \in unitmx) = (A \in unitmx).
Proof. by case: _ / e; rewrite castmx_id. Qed.

Lemma np_diagE d k (le_dk : (d <= k)%N) (Sg : 'rV[F]_(minn d k)) :
  np_diag le_dk Sg = pid_mx (minn d k) *m diag_mx Sg *m (pid_mx (minn d k))^T.
Proof. by rewrite tr_pid_mx /np_diag castmx_diagE. Qed.

Lemma np_diag_sym d k (le_dk : (d <= k)%N) (Sg : 'rV[F]_(minn d k)) :
  (np_diag le_dk Sg)^T = np_diag le_dk Sg.
Proof. by rewrite /np_diag castmx_diag_row tr_diag_mx. Qed.

(* A quadratic form with a non-negative diagonal is non-negative. *)
Lemma diag_form_ge0 n (D : 'rV[F]_n) (w : 'rV[F]_n) :
  (forall i, 0 <= D 0 i) -> 0 <= (w *m diag_mx D *m w^T) 0 0.
Proof.
move=> D_ge0; rewrite mul_mx_diag mxE; apply: sumr_ge0 => i _.
by rewrite !mxE mulrAC -expr2 mulr_ge0 ?sqr_ge0.
Qed.

Lemma congruence_sym n (A B : 'M[F]_n) :
  A^T = A -> (B^T *m A *m B)^T = B^T *m A *m B.
Proof. by move=> symA; rewrite !trmx_mul trmxK symA mulmxA. Qed.

Lemma congruence_ge0 n (A B : 'M[F]_n) :
  (forall w : 'rV[F]_n, 0 <= (w *m A *m w^T) 0 0) ->
  forall v : 'rV[F]_n, 0 <= (v *m (B^T *m A *m B) *m v^T) 0 0.
Proof.
move=> A_ge0 v; have := A_ge0 (v *m B^T).
by rewrite trmx_mul trmxK !mulmxA.
Qed.

Lemma congruence_symT n (A B : 'M[F]_n) :
  A^T = A -> (B *m A *m B^T)^T = B *m A *m B^T.
Proof. by move=> symA; rewrite -{1 3}[B]trmxK; apply: congruence_sym. Qed.

Lemma congruence_ge0T n (A B : 'M[F]_n) :
  (forall w : 'rV[F]_n, 0 <= (w *m A *m w^T) 0 0) ->
  forall v : 'rV[F]_n, 0 <= (v *m (B *m A *m B^T) *m v^T) 0 0.
Proof. by move=> A_ge0 v; rewrite -{1}[B]trmxK; apply: congruence_ge0. Qed.

(* W D W^T is the symmetric factor of the polar decomposition of W D V. *)
Lemma polar_factor_sqr n (W D V : 'M[F]_n) :
  W^T *m W = 1%:M -> V *m V^T = 1%:M -> D^T = D ->
  (W *m D *m W^T) *m (W *m D *m W^T) = (W *m D *m V) *m (W *m D *m V)^T.
Proof.
move=> WW VV symD; rewrite !trmx_mul symD -!mulmxA; congr (_ *m (_ *m _)).
by rewrite !mulmxA WW VV.
Qed.

Lemma ellipsoid_transport n (Lx Ly P0 : 'M[F]_n) :
  Lx \in unitmx -> P0^T = P0 -> P0 *m P0 = (Lx^T *m Ly) *m (Lx^T *m Ly)^T ->
  let P := (invmx Lx)^T *m P0 *m invmx Lx in
  P *m (Lx *m Lx^T) *m P^T = Ly *m Ly^T.
Proof.
move=> unitL symP sqrP /=; rewrite congruence_sym // !mulmxA.
rewrite -(mulmxA _ (invmx Lx) Lx) mulVmx // mulmx1.
rewrite -(mulmxA _ Lx^T) -trmx_mul mulVmx // trmx1 mulmx1 -(mulmxA _ P0 P0) sqrP.
rewrite trmx_mul trmxK !mulmxA -trmx_mul mulmxV // trmx1 mul1mx.
by rewrite -!mulmxA mulmxV // mulmx1.
Qed.

End Casts.

Section PsdFit.

Variable F : realFieldType.
Variable svd : forall d k : nat, 'M[F]_(d, k) -> svd_result F d k.
Variables d k : nat.
Hypothesis le_dk : (d <= k)%N.

Section Factor.

Variable X : 'M[F]_(d, k).
Hypothesis svdX : is_svd X (svd X).

Lemma svd_factor_gram :
  svd_factor svd le_dk X *m (svd_factor svd le_dk X)^T = X *m X^T.
Proof.
rewrite [in RHS](svd_factorization svdX) /svd_factor.
have := leading_rows_orthonormal svdX; have := svd_orthoU svdX.
case: (svd X) => [[U Sg] Vh] /= _ KK.
rewrite np_diagE !trmx_mul !trmxK tr_diag_mx -!mulmxA.
congr (_ *m (_ *m (_ *m _))).
rewrite (mulmxA (leading_rows d Vh)) KK mul1mx.
by rewrite (mulmxA _^T) (mulmxA (_^T *m _)) pid_colK mul1mx.
Qed.

Lemma svd_factor_unit : \rank X = d -> svd_factor svd le_dk X \in unitmx.
Proof.
move=> /(svd_full_rank svdX); rewrite /svd_factor.
have := svd_orthoU svdX; case: (svd X) => [[U Sg] Vh] /= /orthogonal_unit unitU.
by rewrite unitmx_mul unitU /np_diag castmx_unit.
Qed.

End Factor.

Variables X Y : 'M[F]_(d, k).
Let Lx := svd_factor svd le_dk X.
Let Ly := svd_factor svd le_dk Y.
Let Lxy := Lx^T *m Ly.

Hypothesis svdX : is_svd X (svd X).
Hypothesis svdY : is_svd Y (svd Y).
Hypothesis svdXY : is_svd Lxy (svd Lxy).
Hypothesis rankX : \rank X = d.

Let W := (svd Lxy).1.1.
Let Sigma := (svd Lxy).1.2.
Let P0 := W *m np_diag (leqnn d) Sigma *m W^T.
Let Lx_inv := invmx Lx.

Lemma psd_fitE : psd_fit svd X Y = Some (Lx_inv^T *m P0 *m Lx_inv).
Proof.
rewrite /psd_fit; case: {-}_ / idP => // le'.
rewrite (bool_irrelevance le' le_dk) -/Lx -/Ly -/Lxy /P0 /W /Sigma.
by case: (svd Lxy) => [[? ?] ?] /=; rewrite /inv (svd_factor_unit svdX rankX).
Qed.

Lemma polar_sym : P0^T = P0.
Proof. by rewrite /P0 congruence_symT // np_diag_sym. Qed.

Lemma polar_ge0 (w : 'rV[F]_d) : 0 <= (w *m P0 *m w^T) 0 0.
Proof.
rewrite /P0; apply: congruence_ge0T => v.
rewrite /np_diag castmx_diag_row.
apply: diag_form_ge0; apply: castmx_row_ge0; exact: (svd_nonneg svdXY).
Qed.

Lemma polar_sqr : P0 *m P0 = Lxy *m Lxy^T.
Proof.
have oW := orthogonal_tr (svd_orthoU svdXY); have oV := svd_orthoV svdXY.
rewrite /P0 (polar_factor_sqr oW oV) ?np_diag_sym //.
suff <-: Lxy = W *m np_diag (leqnn d) Sigma *m (svd Lxy).2 by [].
move: svdXY; rewrite /W /Sigma; case: (svd Lxy) => [[? ?] ?] [_ _ _ {1}->] /=.
by rewrite np_diagE tr_pid_mx.
Qed.

Lemma psd_fit_psd : psd (Lx_inv^T *m P0 *m Lx_inv).
Proof.
split; first exact/congruence_sym/polar_sym.
exact/congruence_ge0/polar_ge0.
Qed.

Lemma psd_fit_ellipsoid :
  let P := Lx_inv^T *m P0 *m Lx_inv in
  P *m (X *m X^T) *m P^T = Y *m Y^T.
Proof.
rewrite -(svd_factor_gram svdX) -(svd_factor_gram svdY) -/Lx -/Ly.
apply: ellipsoid_transport; first exact: svd_factor_unit.
  exact: polar_sym.
exact: polar_sqr.
Qed.

End PsdFit.

Section DiagonalLemmas.

Variable F : realFieldType.

Lemma diag_of_sigma d k (Sg : 'rV[F]_(minn d k)) : diag_of (sigma_mx Sg) = Sg.
Proof.
apply/rowP => i; rewrite /sigma_mx !mxE (bigD1 i) //= mul_mx_diag !mxE /=.
rewrite !eqxx ltn_ord /= mul1r mulr1 big1 ?addr0 // => j ne_ji.
by rewrite !mxE /= -val_eqE /= in ne_ji *; rewrite (negbTE ne_ji) mulr0.
Qed.

Lemma sigma_mx_diag d k (Sg : 'rV[F]_(minn d k)) (i : 'I_(minn d k)) :
  sigma_mx Sg (widen_ord (geq_minl d k) i) (widen_ord (geq_minr d k) i) = Sg 0 i.
Proof. by have /rowP /(_ i) := diag_of_sigma Sg; rewrite mxE. Qed.

Lemma svd_diag_sigma d k (Sg : 'rV[F]_(minn d k)) :
  descending Sg -> is_svd (sigma_mx Sg) (svd_diag (sigma_mx Sg)).
Proof.
move=> Sg_desc; rewrite /svd_diag diag_of_sigma.
by split; rewrite /orthogonal ?trmx1 ?mulmx1 ?mul1mx.
Qed.

Lemma descending_stairs r : descending (stairs F r).
Proof.
split=> [i|i j le_ij]; rewrite !mxE ?ler0n // ler_nat.
exact: leq_sub2l.
Qed.

Lemma descending_mul r (S1 S2 : 'rV[F]_r) :
  descending S1 -> descending S2 -> descending (\row_j (S1 0 j * S2 0 j)).
Proof.
case=> ge1 desc1 [ge2 desc2]; split=> [i|i j le_ij]; rewrite !mxE.
  exact: mulr_ge0.
by apply: ler_pM => //; [apply: desc1 | apply: desc2].
Qed.

Lemma stairs_unit r : diag_mx (stairs F r) \in unitmx.
Proof.
rewrite unitmxE det_diag unitfE; apply/prodf_neq0 => i _.
by rewrite mxE pnatr_eq0 subn_eq0 -ltnNge.
Qed.

Lemma rank_sigma_stairs d k : \rank (sigma_mx (stairs F (minn d k))) = minn d k.
Proof.
have freeE : row_free (pid_mx (minn d k) : 'M[F]_(minn d k, k)).
  by apply/row_freeP; exists (pid_mx (minn d k))^T; exact: pid_rowK.
rewrite /sigma_mx mxrankMfree // mxrankMfree ?row_free_unit ?stairs_unit //.
by rewrite rank_pid_mx ?geq_minl.
Qed.

End DiagonalLemmas.

Section PoolLemmas.

Variables rng res : Type.
Variable task : nat -> rng -> res * rng.

(* The task reseeds: its result does not depend on the generator state it
   finds in the worker. *)
Hypothesis reseeds : forall t g1 g2, (task t g1).1 = (task t g2).1.

Variable g0 : rng.

Lemma slots_foldl (p : Pool.pool rng res) (sched : seq (Pool.action rng)) t :
  Pool.slots (foldl (Pool.act task) p sched) t =
  if t \in Pool.tasks sched then Some (task t g0).1 else Pool.slots p t.
Proof.
elim: sched p => [|[w t'|w g] sched IH] p //=; rewrite IH.
  rewrite /Pool.tasks /= -/(Pool.tasks sched) in_cons.
  case: (task t' _) (reseeds t' (Pool.generators p w) g0) => r g' /= ->.
  rewrite /Pool.upd; case: (t \in _); rewrite ?orbT //= orbF.
  by case: eqP => [->|].
by rewrite /Pool.tasks /= -/(Pool.tasks sched).
Qed.

Lemma pmap_some (A : eqType) (B : Type) (f : A -> option B) (h : A -> B)
    (s : seq A) :
  {in s, forall x, f x = Some (h x)} -> pmap f s = map h s.
Proof.
elim: s => [|x s IH] //= fh; rewrite fh ?mem_head //= IH // => y y_s.
by apply: fh; rewrite in_cons y_s orbT.
Qed.

Lemma pool_mapE size n init (sched : seq (Pool.action rng)) :
  Pool.schedule_of size n sched ->
  Pool.map task init sched n = [seq (task t g0).1 | t <- iota 0 n].
Proof.
case/andP=> /perm_mem tasksE _; rewrite /Pool.map.
by apply: pmap_some => t t_n; rewrite slots_foldl tasksE t_n.
Qed.

End PoolLemmas.

Section PadLemmas.

Variable F : realFieldType.
Variables num_x num_y : nat.
Hypothesis le_xy : (num_x <= num_y)%N.
Variable Px : 'M[F]_num_x.

Lemma pad_inner (i j : 'I_num_x) :
  pad le_xy Px (widen_ord le_xy i) (widen_ord le_xy j) = Px i j.
Proof.
rewrite /pad castmxE /=.
have ->: cast_ord (esym (subnKC le_xy)) (widen_ord le_xy i) = lshift _ i.
  exact: val_inj.
have ->: cast_ord (esym (subnKC le_xy)) (widen_ord le_xy j) = lshift _ j.
  exact: val_inj.
by rewrite block_mxEul.
Qed.

Lemma pad_outer (i j : 'I_num_y) :
  ~~ ((i < num_x)%N && (j < num_x)%N) -> pad le_xy Px i j = 0.
Proof.
rewrite /pad castmxE /=.
set i' := cast_ord _ i; set j' := cast_ord _ j.
rewrite -[nat_of_ord i]/(nat_of_ord i') -[nat_of_ord j]/(nat_of_ord j') => out.
rewrite /block_mx mxE; case: splitP out => i1 i1E; rewrite mxE;
  case: splitP => j1 j1E; rewrite ?mxE // i1E j1E.
Qed.

End PadLemmas.

Lemma pad_same (F : realFieldType) (n m : nat) (le_nm : (n <= m)%N)
    (e : n = m) (Px : 'M[F]_n) :
  pad le_nm Px = castmx (e, e) Px.
Proof.
case: _ / e in le_nm *; rewrite castmx_id; apply/matrixP => i j.
have <-: widen_ord le_nm i = i by apply: val_inj.
have <-: widen_ord le_nm j = j by apply: val_inj.
by rewrite pad_inner; congr (Px _ _); apply: val_inj.
Qed.

Section PipelineLemmas.

Variable F : realFieldType.
Variable svd : forall d k : nat, 'M[F]_(d, k) -> svd_result F d k.
Variable exp : F -> F.
Variable rng : Type.
Variable np_random_seed : nat -> rng.
Variable quadratic_assignment :
  forall m : nat, 'M[F]_m -> 'M[F]_m -> rng -> ('I_m -> 'I_m) * rng.
Variable linear_sum_assignment :
  forall m : nat, 'M[F]_m -> ('I_m -> 'I_m) * ('I_m -> 'I_m).

Local Notation f_opt := (f_opt exp np_random_seed quadratic_assignment).
Local Notation trials := (trials svd exp np_random_seed quadratic_assignment).
Local Notation aggregated :=
  (aggregated svd exp np_random_seed quadratic_assignment).
Local Notation correspondence :=
  (correspondence svd exp np_random_seed quadratic_assignment
     linear_sum_assignment).
Local Notation granni_core :=
  (granni_core svd exp np_random_seed quadratic_assignment
     linear_sum_assignment).
Local Notation granni_point_clouds :=
  (granni_point_clouds svd exp np_random_seed quadratic_assignment
     linear_sum_assignment).

(* np.random.seed(i) comes first in f_opt: what the trial returns does not
   depend on the state in which it finds the worker's generator. *)
Lemma f_opt_reseeds m (Px Py : 'M[F]_m) i g1 g2 :
  (f_opt Px Py i g1).1 = (f_opt Px Py i g2).1.
Proof. by []. Qed.

Section Core.

Variables dx num_x dy num_y : nat.
Hypothesis le_xy : (num_x <= num_y)%N.
Variable X : 'M[F]_(dx, num_x).
Variable Y : 'M[F]_(dy, num_y).
Variable L : 'M[F]_dim.
Variable init : nat -> rng.
Variable sched : seq (Pool.action rng).
Variable n_iter : nat.

Lemma trialsE workers g :
  Pool.schedule_of workers n_iter sched ->
  trials le_xy X Y init sched n_iter =
  [seq (f_opt (Px svd le_xy X) (Py svd Y) t g).1 | t <- iota 0 n_iter].
Proof.
by move=> ok; rewrite /trials (pool_mapE (@f_opt_reseeds _ _ _) g _ ok).
Qed.

Lemma size_trials workers :
  Pool.schedule_of workers n_iter sched ->
  size (trials le_xy X Y init sched n_iter) = n_iter.
Proof. by move=> ok; rewrite (trialsE (init 0%N) ok) size_map size_iota. Qed.

Let gram := Xc X *m (Xc X)^T.
Let vals := trials le_xy X Y init sched n_iter.
Let started := [seq Trial t | t <- Pool.tasks sched].

Lemma granni_coreE :
  granni_core le_xy X Y L init sched n_iter =
  if (0 < num_x)%N then
    if nilp vals then
      ([:: Centering; Projection; Padding] ++ started ++
       [:: Aggregation; Assignment], inl ValueErrorAssignment)
    else
      ([:: Centering; Projection; Padding] ++ started ++
       [:: Aggregation; Assignment; Estimation],
       if gram \in unitmx then
         inr (L, matched le_xy Y (correspondence le_xy X Y init sched n_iter)
                   *m (Xc X)^T *m invmx gram)
       else inl LinAlgErrorSingular)
  else ([:: Centering; Projection], inl LinAlgErrorSvd).
Proof.
rewrite /granni_core /correspondence /aggregated /dispatch.
rewrite -/vals -/started -/gram.
case: (0 < num_x)%N => //=; rewrite /inv.
case: (nilp vals) => //=.
case: (linear_sum_assignment _) => row_ind col_ind /=.
by case: (gram \in unitmx).
Qed.

End Core.

Lemma dim_check (d : nat) : (dim == d) && (d == 3) = (d == 3).
Proof. by rewrite /dim eq_sym andbb. Qed.

Section Entry.

Variables dx num_x dy num_y : nat.
Variable X : 'M[F]_(dx, num_x).
Variable Y : 'M[F]_(dy, num_y).
Variable L : 'M[F]_dim.
Variable init : nat -> rng.
Variable sched : seq (Pool.action rng).
Variable n_iter : nat.

Lemma granni_reject :
  (num_y < num_x)%N ->
  granni_point_clouds L X Y init sched n_iter =
  ([::], inl (if dx != 3 then AssertDimX else
              if dy != 3 then AssertDimY else AssertCardinality)).
Proof.
move=> gt_xy; rewrite /granni_point_clouds !dim_check.
case: (dx == 3) => //=; case: (dy == 3) => //=.
case: {-}_ / idP => // le_xy; have := le_xy.
by rewrite leqNgt gt_xy.
Qed.

Lemma granni_accept (le_xy : (num_x <= num_y)%N) :
  dx = 3 -> dy = 3 ->
  granni_point_clouds L X Y init sched n_iter =
  granni_core le_xy X Y L init sched n_iter.
Proof.
move=> /eqP dx3 /eqP dy3; rewrite /granni_point_clouds !dim_check dx3 dy3 /=.
case: {-}_ / idP => // le'; rewrite (bool_irrelevance le' le_xy).
by case: (granni_core _ _ _ _ _ _ _) => log [].
Qed.

(* A run that returns has passed the three assertions. *)
Lemma granni_returns LL0 :
  (granni_point_clouds L X Y init sched n_iter).2 = inr LL0 ->
  [/\ dx = 3, dy = 3 & (num_x <= num_y)%N].
Proof.
rewrite /granni_point_clouds !dim_check.
case: eqP => //= dx3; case: eqP => //= dy3.
by case: {-}_ / idP.
Qed.

End Entry.

(* Fewer points than rows: the Gram matrix of the cloud is singular. *)
Lemma gram_singular d n (X : 'M[F]_(d, n)) :
  (n < d)%N -> X *m X^T \notin unitmx.
Proof.
move=> lt_nd; rewrite -row_full_unit /row_full neq_ltn; apply/orP; left.
apply: leq_ltn_trans lt_nd; apply: leq_trans (mxrankM_maxl _ _) _.
exact: rank_leq_col.
Qed.

Lemma foldl_addE (V : zmodType) (z : V) (s : seq V) :
  foldl +%R z s = z + \sum_(x <- s) x.
Proof.
elim: s z => [|x s IH] z /=; first by rewrite big_nil addr0.
by rewrite IH big_cons addrA.
Qed.

Section Runs.

Variables dx num_x dy num_y : nat.
Variable X : 'M[F]_(dx, num_x).
Variable Y : 'M[F]_(dy, num_y).
Variable L : 'M[F]_dim.
Variable n_iter : nat.

Lemma granni_bad_dims init sched :
  (dx != 3) || (dy != 3) ->
  granni_point_clouds L X Y init sched n_iter =
  ([::], inl (if dx != 3 then AssertDimX else AssertDimY)).
Proof.
rewrite /granni_point_clouds !dim_check.
by case: (dx == 3) => //=; case: (dy == 3).
Qed.

(* The value or exception of a run is determined by what pool.map
   returns. *)
Lemma granni_result_trials (le_xy : (num_x <= num_y)%N)
    init1 sched1 init2 sched2 :
  trials le_xy X Y init1 sched1 n_iter =
  trials le_xy X Y init2 sched2 n_iter ->
  (granni_point_clouds L X Y init1 sched1 n_iter).2 =
  (granni_point_clouds L X Y init2 sched2 n_iter).2.
Proof.
move=> same; have [bad|] := boolP ((dx != 3) || (dy != 3)).
  by rewrite !granni_bad_dims.
rewrite negb_or !negbK => /andP[/eqP dx3 /eqP dy3].
rewrite !(granni_accept X Y L _ _ _ le_xy) // !granni_coreE.
rewrite /Granni.correspondence /Granni.aggregated same.
by case: (0 < num_x)%N => //; case: (nilp _).
Qed.

(* Once the assertions have passed on a cloud X with a point, nothing stops
   the run before the trials: they all start, then the aggregation and the
   assignment, and an exception can only come from linear_sum_assignment
   (n_iter = 0) or from np.linalg.inv in the last line. *)
Lemma granni_unchecked (le_xy : (num_x <= num_y)%N) workers init sched :
  dx = 3 -> dy = 3 -> (0 < num_x)%N ->
  Pool.schedule_of workers n_iter sched ->
  let r := granni_point_clouds L X Y init sched n_iter in
  r.1 = [:: Centering; Projection; Padding] ++
        [seq Trial t | t <- Pool.tasks sched] ++
        (if n_iter is 0 then [:: Aggregation; Assignment]
         else [:: Aggregation; Assignment; Estimation]) /\
  forall e, r.2 = inl e ->
    e = if n_iter is 0 then ValueErrorAssignment else LinAlgErrorSingular.
Proof.
move=> dx3 dy3 x_gt0 ok /=.
rewrite (granni_accept X Y L _ _ _ le_xy) // granni_coreE x_gt0.
have := size_trials le_xy X Y init ok; rewrite /nilp => ->.
case: n_iter {ok} => [|n] /=; first by split=> // e [].
by case: ifP => _; split=> // e [].
Qed.

(* np.linalg.inv raises in the last line when it meets a zero pivot, after
   the trials. *)
Lemma granni_degenerate (le_xy : (num_x <= num_y)%N) workers init sched :
  dx = 3 -> dy = 3 -> (0 < num_x)%N ->
  Pool.schedule_of workers n_iter sched ->
  Xc X *m (Xc X)^T \notin unitmx ->
  granni_point_clouds L X Y init sched n_iter =
  ([:: Centering; Projection; Padding] ++
   [seq Trial t | t <- Pool.tasks sched] ++
   (if n_iter is 0 then [:: Aggregation; Assignment]
    else [:: Aggregation; Assignment; Estimation]),
   inl (if n_iter is 0 then ValueErrorAssignment else LinAlgErrorSingular)).
Proof.
move=> dx3 dy3 x_gt0 ok singular.
rewrite (granni_accept X Y L _ _ _ le_xy) // granni_coreE x_gt0.
rewrite (negbTE singular).
have := size_trials le_xy X Y init ok; rewrite /nilp => ->.
by case: n_iter.
Qed.

End Runs.

End PipelineLemmas.

Section ExampleLemmas.

Import Example.
Variable F : realFieldType.

Local Notation j := (ones F).
Local Notation X := (tetrahedron F).

Lemma tetra_arith (V : zmodType) (x c : V) :
  c - x *+ 2 - (x *+ 2 - x *+ 3) + x = c.
Proof.
have ->: x *+ 2 - x *+ 3 = - x.
  by rewrite (mulrS x 2) opprD addrCA subrr addr0.
by rewrite opprK mulr2n opprD !addrA subrK subrK.
Qed.

Lemma row_sumE d n (A : 'M[F]_(d, n)) i :
  \sum_j A i j = (A *m (const_mx 1 : 'cV[F]_n)) i 0.
Proof. by rewrite mxE; apply: eq_bigr => l _; rewrite mxE mulr1. Qed.

Lemma const_sqr n : (const_mx 1 : 'rV[F]_n) *m const_mx 1 = n%:R%:M.
Proof.
apply/matrixP => a b; rewrite !ord1 !mxE eqxx mulr1n.
under eq_bigr do rewrite !mxE mulr1.
by rewrite sumr_const card_ord.
Qed.

Lemma ones_sqr : j^T *m j = 3%:R%:M.
Proof. by rewrite /ones trmx_const const_sqr. Qed.

Lemma const11 : (const_mx 1 : 'M[F]_1) = 1%:M.
Proof. by apply/matrixP => a b; rewrite !ord1 !mxE eqxx. Qed.

(* The four vertices add up to 0. *)
Lemma tetrahedron_sums : X *m (const_mx 1 : 'cV[F]_(3 + 1)) = 0.
Proof.
rewrite -[const_mx 1](@col_mx_const _ 3 1) /tetrahedron mul_row_col const11.
rewrite mulmx1 mulmxBl mul_scalar_mx -mulmxA ones_sqr mul_mx_scalar.
rewrite -[X in _ + X]scale1r -scalerBl -scalerDl addrAC natr1 subrr.
by rewrite scale0r.
Qed.

Lemma bar_tetrahedron : bar X = 0.
Proof.
by apply/rowP => i; rewrite barE row_sumE tetrahedron_sums !mxE mul0r.
Qed.

Lemma tetrahedron_centered : barycentered X = X.
Proof. exact/barycentered_bar0/bar_tetrahedron. Qed.

Lemma tetrahedron_gram : X *m X^T = 4%:R%:M.
Proof.
rewrite /tetrahedron tr_row_mx mul_row_col linearB /= tr_scalar_mx.
rewrite trmx_mul trmxK; set J := j *m j^T.
have JJ : J *m J = 3%:R *: J.
  by rewrite /J mulmxA -(mulmxA j) ones_sqr mul_mx_scalar -scalemxAl.
rewrite mulmxBl !mulmxBr JJ !mul_scalar_mx mul_mx_scalar scale_scalar_mx.
by rewrite -natrM !scaler_nat tetra_arith.
Qed.

Lemma tetrahedron_unit : X *m X^T \in unitmx.
Proof.
rewrite tetrahedron_gram unitmxE det_scalar unitfE expf_neq0 //.
by rewrite pnatr_eq0.
Qed.

(* The stand-in is a singular value decomposition on the tetrahedron. *)
Lemma tetrahedron_svdP : is_svd X (svd0 X).
Proof.
have two_neq0 : 2%:R != 0 :> F by rewrite pnatr_eq0.
split; rewrite /orthogonal ?trmx1 ?mulmx1 //.
- rewrite linearZ /= -scalemxAl -scalemxAr scalerA tr_col_mx mul_col_row.
  rewrite trmx_const tetrahedron_gram tetrahedron_sums const_sqr.
  rewrite -[const_mx 1 *m X^T]trmxK trmx_mul trmxK trmx_const.
  rewrite tetrahedron_sums trmx0 -scalar_mx_block -mul_scalar_mx.
  by rewrite -scalar_mxM -invfM -natrM mulVf // pnatr_eq0.
- by split=> [i|i l _]; rewrite !mxE // ler0n.
rewrite mul1mx /sigma_mx pid_mx_1 mul1mx diag_const_mx mul_scalar_mx.
rewrite -scalemxAl -scalemxAr scalerA divff // scale1r.
by rewrite pid_mx_row mul_row_col mul1mx mul0mx addr0.
Qed.

(* Centering the pair leaves the zero array, on which the stand-in is a
   singular value decomposition too. *)
Lemma pair_centered : barycentered (pair F) = 0.
Proof.
apply/matrixP => i l; rewrite barycenteredE barE !mxE.
under eq_bigr do rewrite mxE.
by rewrite sumr_const card_ord divff ?subrr // pnatr_eq0.
Qed.

Lemma svd_diag0 d k : is_svd (0 : 'M[F]_(d, k)) (svd_diag 0).
Proof.
have {1 2}->: (0 : 'M[F]_(d, k)) = sigma_mx 0.
  by rewrite /sigma_mx (_ : diag_mx 0 = 0) ?mulmx0 ?mul0mx // linear0.
by apply: svd_diag_sigma; split=> [i|i l _]; rewrite !mxE.
Qed.

Lemma pair_svdP : is_svd (Xc (pair F)) (svd0 (Xc (pair F))).
Proof. by rewrite /Xc pair_centered; exact: svd_diag0. Qed.

Lemma X23_svd : is_svd (X23 F) (svd_diag (X23 F)).
Proof. exact/svd_diag_sigma/descending_stairs. Qed.

Lemma Y23_svd : is_svd (Y23 F) (svd_diag (Y23 F)).
Proof.
by apply/svd_diag_sigma/descending_mul; apply: descending_stairs.
Qed.

Lemma X23_rank : \rank (X23 F) = 2.
Proof. exact: rank_sigma_stairs. Qed.

Lemma X23_e3 : X23 F *m e3 F = 0.
Proof.
rewrite /X23 /sigma_mx -mulmxA -colE (_ : col _ _ = 0) ?mulmx0 //.
by apply/matrixP => i j; rewrite !mxE; case: i => [[|[|i]]].
Qed.

Lemma e3_neq0 : e3 F != 0.
Proof.
apply/eqP => /matrixP /(_ ord_max 0); rewrite !mxE !eqxx /=.
by move/eqP; rewrite oner_eq0.
Qed.

Lemma X23_row0 : (row ord0 (X23 F))^T != 0.
Proof.
pose i0 : 'I_(minn 2 3) := ord0.
have Xi0 := sigma_mx_diag (stairs F (minn 2 3)) i0.
have l0 : widen_ord (geq_minl 2 3) i0 = ord0 by apply: val_inj.
apply/eqP => /matrixP /(_ (widen_ord (geq_minr 2 3) i0) ord0).
rewrite mxE [in LHS]mxE [RHS]mxE -l0 -/(sigma_mx _) /X23 Xi0 mxE subn0.
by move/eqP; rewrite pnatr_eq0.
Qed.

Lemma svd_factor_sigma (Sg : 'rV[F]_(minn 2 3)) (le23 : (2 <= 3)%N) :
  svd_factor (@svd_diag F) le23 (sigma_mx Sg) = diag_mx Sg.
Proof.
by rewrite /svd_factor /svd_diag diag_of_sigma mul1mx /np_diag castmx_id.
Qed.

Lemma XY23_svd (le23 : (2 <= 3)%N) :
  let Lxy := (svd_factor (@svd_diag F) le23 (X23 F))^T
             *m svd_factor (@svd_diag F) le23 (Y23 F) in
  is_svd Lxy (svd_diag Lxy).
Proof.
have descX := descending_stairs F (minn 2 3).
have descY := descending_mul descX descX.
rewrite /= !svd_factor_sigma tr_diag_mx mulmx_diag.
set Sg := \row_j _; have descS : descending Sg by exact: descending_mul.
have ->: diag_mx Sg = sigma_mx (Sg : 'rV[F]_(minn 2 2)).
  by rewrite /sigma_mx pid_mx_1 mul1mx mulmx1.
exact: svd_diag_sigma.
Qed.

Lemma schedule_in_order : Pool.schedule_of 1 2 in_order.
Proof. by []. Qed.

Lemma schedule_out_of_order : Pool.schedule_of 2 2 out_of_order.
Proof. by []. Qed.

End ExampleLemmas.

Section ExampleRuns.

Import Example.

Lemma matched_id (F : realFieldType) d n (le_nn : (n <= n)%N)
    (Y : 'M[F]_(d, n)) :
  matched le_nn Y id = Yc Y.
Proof.
apply/matrixP => i l; rewrite /matched mxE mxE.
by rewrite (_ : widen_ord le_nn l = l) //; apply: val_inj.
Qed.

(* With both clouds the tetrahedron, the run recovers the identity map. *)
Lemma tetrahedron_run init sched workers :
  Pool.schedule_of workers 2 sched ->
  (granni 1%:M (tetrahedron R) (tetrahedron R) init sched 2).2 =
  inr (1%:M, 1%:M).
Proof.
move=> ok; rewrite /granni (granni_accept _ _ _ _ _ _ _ _ _ _ _ le44) //.
rewrite granni_coreE /= /nilp (size_trials _ _ _ _ _ _ _ _ ok) /=.
rewrite /Granni.correspondence /= matched_id /Xc /Yc !tetrahedron_centered.
by rewrite tetrahedron_unit mulmxV ?tetrahedron_unit.
Qed.

(* The trace that the identity assignment reaches in a trial of that run
   is the largest possible one, 3. *)
Lemma tetrahedron_trace :
  let P1 := Px svd le44 (tetrahedron R) in
  let P2 := Py svd (tetrahedron R) in
  \tr (P1 *m rowsub id 1%:M *m P2 *m (rowsub id 1%:M)^T) = 3%:R.
Proof.
have svdX : is_svd (Xc (tetrahedron R)) (svd (Xc (tetrahedron R))).
  by rewrite /Xc tetrahedron_centered; exact: tetrahedron_svdP.
rewrite /= /Px /Py /Yc -/(Xc _) (pad_same _ (erefl _)) castmx_id mxsub_id.
by rewrite trmx1 !mulmx1 (proj_idem svdX) (proj_trace svdX).
Qed.

Lemma pair_singular : Xc (pair R) *m (Xc (pair R))^T \notin unitmx.
Proof. exact: gram_singular. Qed.

End ExampleRuns.

(* ===================================================================== *)
(*  The claims                                                           *)
(* ===================================================================== *)

Section Claims.

Variable F : realFieldType.
Variable svd : forall d k : nat, 'M[F]_(d, k) -> svd_result F d k.
Variable exp : F -> F.
Variable rng : Type.
Variable np_random_seed : nat -> rng.
Variable quadratic_assignment :
  forall m : nat, 'M[F]_m -> 'M[F]_m -> rng -> ('I_m -> 'I_m) * rng.
Variable linear_sum_assignment :
  forall m : nat, 'M[F]_m -> ('I_m -> 'I_m) * ('I_m -> 'I_m).

Local Notation f_opt := (f_opt exp np_random_seed quadratic_assignment).
Local Notation trials := (trials svd exp np_random_seed quadratic_assignment).
Local Notation aggregated :=
  (aggregated svd exp np_random_seed quadratic_assignment).
Local Notation correspondence :=
  (correspondence svd exp np_random_seed quadratic_assignment
     linear_sum_assignment).
Local Notation granni_point_clouds :=
  (granni_point_clouds svd exp np_random_seed quadratic_assignment
     linear_sum_assignment).

(** X30: what ortho_proj_ker(X) returns fixes every row of X, whatever the
    rank of X, and on a full-rank X it sends every v with X v = 0 to 0. *)
Theorem ortho_proj_ker_row_space (d k : nat) (X : 'M[F]_(d, k)) :
  is_svd X (svd X) ->
  let P := ortho_proj_ker svd X in
  (forall i, P *m (row i X)^T = (row i X)^T) /\
  (\rank X = d -> forall v : 'cV[F]_k, X *m v = 0 -> P *m v = 0).
Proof.
move=> svdX; split=> [i|rkX v]; last exact: proj_null.
by rewrite tr_row colE mulmxA proj_rows.
Qed.

(** C2: the confidence weight of a trial is
    exp(-1000 (trace(Px S Py S^T) - 3)^2) with S = I[ind] the permutation
    matrix of the trial; trace 3 gives weight 1, and a trace at distance
    delta from 3 gives a weight <= exp(-1000 delta^2). *)
Theorem f_opt_weight (m : nat) (Px Py : 'M[F]_m) (i : nat) (g : rng) :
  exp 0 = 1 ->
  let ind := (quadratic_assignment Px Py (np_random_seed i)).1 in
  let S : 'M[F]_m := rowsub ind 1%:M in
  let t := \tr (Px *m S *m Py *m S^T) in
  let weight := (f_opt Px Py i g).1.1.1 in
  [/\ (f_opt Px Py i g).1.1.2 = S,
      weight = exp (- 1000%:R * (t - 3%:R) ^+ 2),
      t = 3%:R -> weight = 1
    & forall delta, `|t - 3%:R| = delta ->
        weight <= exp (- 1000%:R * delta ^+ 2)].
Proof.
move=> exp0 ind S t weight.
have weightE : weight = exp (- 1000%:R * (t - 3%:R) ^+ 2).
  by rewrite /weight /t /S /ind /f_opt; case: quadratic_assignment.
split=> //; first by rewrite /S /ind /f_opt; case: quadratic_assignment.
  by move=> t3; rewrite weightE t3 subrr expr0n mulr0.
by move=> delta <-; rewrite weightE real_normK ?num_real.
Qed.

(** C3: a run that returns gives back L0 = Y_matched X^T (X X^T)^-1 on the
    centered clouds, where column j < num_x of Y_matched is column
    col_ind[j] of the centered Y and col_ind is what
    linear_sum_assignment returned on the aggregated matrix. *)
Theorem recovered_map_closed_form (dx num_x dy num_y : nat) (L : 'M[F]_dim)
    (X : 'M[F]_(dx, num_x)) (Y : 'M[F]_(dy, num_y))
    (init : nat -> rng) (sched : seq (Pool.action rng)) (n_iter : nat)
    (L' : 'M[F]_dim) (L0 : 'M[F]_(dy, dx)) :
  (granni_point_clouds L X Y init sched n_iter).2 = inr (L', L0) ->
  exists le_xy : (num_x <= num_y)%N,
    let col_ind :=
      (linear_sum_assignment (aggregated le_xy X Y init sched n_iter)).2 in
    let Y_matched := matched le_xy Y col_ind in
    let gram := Xc X *m (Xc X)^T in
    [/\ L0 = Y_matched *m (Xc X)^T *m invmx gram,
        gram \in unitmx,
        forall i (j : 'I_num_x),
          Y_matched i j = Yc Y i (col_ind (widen_ord le_xy j))
      & L' = L].
Proof.
move=> returns; have [dx3 dy3 le_xy] := granni_returns returns.
exists le_xy; move: returns.
rewrite (granni_accept _ _ _ _ _ _ _ _ _ _ _ le_xy) //.
rewrite granni_coreE; case: ifP => // _; case: ifP => // _.
case: ifP => // unit_gram [<- <-]; split=> // i j.
by rewrite /matched !mxE.
Qed.

(** C4: for num_x <= num_y the padded operator has Px in its top-left
    block and zeros elsewhere, and for num_x = num_y it is Px. *)
Theorem pad_block (num_x num_y : nat) (le_xy : (num_x <= num_y)%N)
    (Px : 'M[F]_num_x) :
  [/\ forall i j : 'I_num_x,
        pad le_xy Px (widen_ord le_xy i) (widen_ord le_xy j) = Px i j,
      forall i j : 'I_num_y,
        ~~ ((i < num_x)%N && (j < num_x)%N) -> pad le_xy Px i j = 0
    & forall e : num_x = num_y, pad le_xy Px = castmx (e, e) Px].
Proof.
by split; [exact: pad_inner | exact: pad_outer | move=> e; exact: pad_same].
Qed.

(** C5: two runs on the same inputs and n_iter, whatever the size of the
    pool, the worker that runs each trial, the order of completion, the
    recycling of workers and the states of their generators, give the same
    aggregated matrix, the sum of w_i S_i over the trials i < n_iter in the
    order of i, the same correspondence and the same result. *)
Theorem matching_deterministic (dx num_x dy num_y : nat)
    (le_xy : (num_x <= num_y)%N) (L : 'M[F]_dim)
    (X : 'M[F]_(dx, num_x)) (Y : 'M[F]_(dy, num_y)) (n_iter : nat)
    (workers1 workers2 : nat) (init1 init2 : nat -> rng)
    (sched1 sched2 : seq (Pool.action rng)) :
  Pool.schedule_of workers1 n_iter sched1 ->
  Pool.schedule_of workers2 n_iter sched2 ->
  let trial i := (f_opt (Px svd le_xy X) (Py svd Y) i (np_random_seed i)).1 in
  [/\ aggregated le_xy X Y init1 sched1 n_iter =
      \sum_(i <- iota 0 n_iter) (trial i).1.1 *: (trial i).1.2,
      aggregated le_xy X Y init1 sched1 n_iter =
      aggregated le_xy X Y init2 sched2 n_iter,
      correspondence le_xy X Y init1 sched1 n_iter =
      correspondence le_xy X Y init2 sched2 n_iter
    & (granni_point_clouds L X Y init1 sched1 n_iter).2 =
      (granni_point_clouds L X Y init2 sched2 n_iter).2].
Proof.
move=> ok1 ok2 trial.
have same : trials le_xy X Y init1 sched1 n_iter =
            trials le_xy X Y init2 sched2 n_iter.
  rewrite (trialsE svd exp _ _ le_xy X Y init1 (init1 0%N) ok1).
  by rewrite (trialsE svd exp _ _ le_xy X Y init2 (init1 0%N) ok2).
split; last exact: granni_result_trials.
- rewrite /Granni.aggregated /aggregate.
  rewrite (trialsE svd exp _ _ le_xy X Y init1 (init1 0%N) ok1).
  by rewrite foldl_addE add0r -map_comp big_map.
- by rewrite /Granni.aggregated same.
- by rewrite /Granni.correspondence /Granni.aggregated same.
Qed.

(** C6: with more points in X than in Y the run stops at an assertion
    before any step of the core has started: nothing is centered, no
    projector is built, no trial is dispatched.  On three-dimensional
    clouds the failing assertion is num_x <= num_y. *)
Theorem cardinality_rejected_first (dx num_x dy num_y : nat) (L : 'M[F]_dim)
    (X : 'M[F]_(dx, num_x)) (Y : 'M[F]_(dy, num_y))
    (init : nat -> rng) (sched : seq (Pool.action rng)) (n_iter : nat) :
  (num_y < num_x)%N ->
  let r := granni_point_clouds L X Y init sched n_iter in
  [/\ r.1 = [::],
      exists e, r.2 = inl e
    & dx = 3 -> dy = 3 -> r.2 = inl AssertCardinality].
Proof.
move=> gt_xy /=; rewrite granni_reject //; split=> //; first by eexists.
by move=> -> ->.
Qed.

(** C7, as amended: nothing checks for degenerate geometry.  On every input
    that passes the three assertions and has a point in X, a cloud of
    fewer than three points or with a singular X X^T included, every trial
    of range(n_iter) is dispatched, and the aggregation and the assignment
    have started, before an exception can be raised; the exception, if
    there is one, is that of np.linalg.inv in the last line, and for
    n_iter = 0 that of linear_sum_assignment on the empty sum. *)
Theorem degenerate_geometry_unchecked (dx num_x dy num_y : nat)
    (L : 'M[F]_dim) (X : 'M[F]_(dx, num_x)) (Y : 'M[F]_(dy, num_y))
    (workers : nat) (init : nat -> rng) (sched : seq (Pool.action rng))
    (n_iter : nat) :
  dx = 3 -> dy = 3 -> (0 < num_x <= num_y)%N ->
  Pool.schedule_of workers n_iter sched ->
  let r := granni_point_clouds L X Y init sched n_iter in
  [/\ perm_eq (Pool.tasks sched) (iota 0 n_iter),
      r.1 = [:: Centering; Projection; Padding] ++
            [seq Trial t | t <- Pool.tasks sched] ++
            (if n_iter is 0 then [:: Aggregation; Assignment]
             else [:: Aggregation; Assignment; Estimation])
    & forall e, r.2 = inl e ->
        e = if n_iter is 0 then ValueErrorAssignment
            else LinAlgErrorSingular].
Proof.
move=> dx3 dy3 /andP[x_gt0 le_xy] ok.
have /= [log exn] :=
  granni_unchecked svd exp np_random_seed quadratic_assignment
    linear_sum_assignment X Y L le_xy init dx3 dy3 x_gt0 ok.
by split=> //; case/andP: ok.
Qed.

(** C8: for a (d, k) array with d <= k, P = ortho_proj_ker(X) is symmetric,
    idempotent and of rank d.  Neither centering nor full rank of X is
    needed. *)
Theorem ortho_proj_ker_invariant (d k : nat) (X : 'M[F]_(d, k)) :
  is_svd X (svd X) -> (d <= k)%N ->
  let P := ortho_proj_ker svd X in
  [/\ P^T = P, P *m P = P & \rank P = d].
Proof.
move=> svdX le_dk; split; [exact: proj_sym | exact: proj_idem |].
by rewrite proj_rank //; apply/minn_idPl.
Qed.

(** C9: for a d x n array with n >= 1 the barycenter of barycentered(A) is
    the zero vector, centering twice is centering once, and the caller's
    array is left as it was. *)
Theorem barycentered_centered_idempotent (d n : nat) (A : 'M[F]_(d, n)) :
  (0 < n)%N ->
  [/\ bar (barycentered A) = 0,
      barycentered (barycentered A) = barycentered A
    & (barycentered_call A).2 = A].
Proof.
move=> n_gt0; split=> //; first exact: bar_barycentered.
by apply: barycentered_bar0; apply: bar_barycentered.
Qed.

(** C10: for (d, k) arrays X and Y with d <= k and X of full rank d,
    psd_fit(X, Y) returns a symmetric positive-semidefinite P with
    P (X X^T) P^T = Y Y^T. *)
Theorem psd_fit_maps_ellipsoid (d k : nat) (le_dk : (d <= k)%N)
    (X Y : 'M[F]_(d, k)) :
  let Lxy := (svd_factor svd le_dk X)^T *m svd_factor svd le_dk Y in
  is_svd X (svd X) -> is_svd Y (svd Y) -> is_svd Lxy (svd Lxy) ->
  \rank X = d ->
  exists2 P, psd_fit svd X Y = Some P
           & psd P /\ P *m (X *m X^T) *m P^T = Y *m Y^T.
Proof.
move=> Lxy svdX svdY svdXY rkX; rewrite (psd_fitE le_dk Y svdX rkX).
eexists; first by [].
split; [exact: psd_fit_psd | exact: psd_fit_ellipsoid].
Qed.

End Claims.

(* ===================================================================== *)
(*  The claims on concrete inputs                                        *)
(* ===================================================================== *)

Section Witnesses.

Import Example.

Lemma barycentered_centered_idempotent_witness :
  [/\ bar (barycentered (pair R)) = 0,
      barycentered (barycentered (pair R)) = barycentered (pair R)
    & (barycentered_call (pair R)).2 = pair R].
Proof. by apply: barycentered_centered_idempotent. Defined.

Lemma ortho_proj_ker_row_space_witness :
  let P := ortho_proj_ker svd (X23 R) in
  (forall i, P *m (row i (X23 R))^T = (row i (X23 R))^T) /\
  (forall v : 'cV[R]_3, X23 R *m v = 0 -> P *m v = 0).
Proof.
have [rows null] := @ortho_proj_ker_row_space R svd 2 3 (X23 R) (X23_svd R).
by split=> //; apply: null; apply: X23_rank.
Defined.

(** C1 fails on the code.  The header comment of ortho_proj_ker announces
    the orthogonal projection onto ker X, as the claim does, but
    ker = Vx[:rank] takes the rows of Vh that span the row space: on
    [[2, 0, 0], [0, 1, 0]] the vector e3 is in the null space and is sent
    to 0, not to itself, and the first row is kept, not sent to 0. *)
Lemma ortho_proj_ker_not_complement :
  let P := ortho_proj_ker svd (X23 R) in
  [/\ is_svd (X23 R) (svd (X23 R)),
      X23 R *m e3 R = 0,
      P *m e3 R != e3 R
    & P *m (row ord0 (X23 R))^T != 0].
Proof.
split; [exact: X23_svd | exact: X23_e3 | |].
  rewrite (proj_null (X23_svd R) (X23_rank R) (X23_e3 R)) eq_sym.
  exact: e3_neq0.
rewrite tr_row colE mulmxA (proj_rows (X23_svd R)) -colE -tr_row.
exact: X23_row0.
Qed.

Lemma ortho_proj_ker_invariant_witness :
  let P := ortho_proj_ker svd (X23 R) in
  [/\ P^T = P, P *m P = P & \rank P = 2].
Proof.
exact: (@ortho_proj_ker_invariant R svd 2 3 (X23 R) (X23_svd R) isT).
Defined.

Lemma psd_fit_maps_ellipsoid_witness :
  exists2 P, psd_fit svd (X23 R) (Y23 R) = Some P
           & psd P /\ P *m (X23 R *m (X23 R)^T) *m P^T = Y23 R *m (Y23 R)^T.
Proof.
apply: (@psd_fit_maps_ellipsoid R svd 2 3 isT (X23 R) (Y23 R)).
- exact: X23_svd.
- exact: Y23_svd.
- exact: XY23_svd.
- exact: X23_rank.
Defined.

Lemma np_exp_0 : exp 0 = 1.
Proof. exact: Rtrigo_def.exp_0. Qed.

(* Trial 0 of the run on two copies of the tetrahedron has weight 1. *)
Lemma f_opt_weight_witness :
  (f_opt exp np_random_seed (@quadratic_assignment R)
         (Px svd le44 (tetrahedron R)) (Py svd (tetrahedron R))
         0 (idle 0%N)).1.1.1 = 1.
Proof.
have [_ _ one _] := @f_opt_weight R exp rng np_random_seed
  (@quadratic_assignment R) (3 + 1) (Px svd le44 (tetrahedron R))
  (Py svd (tetrahedron R)) 0%N (idle 0%N) np_exp_0.
by apply: one; exact: tetrahedron_trace.
Defined.

Lemma pad_block_witness :
  let Px : 'M[R]_1 := 1%:M in
  let le12 : (1 <= 2)%N := isT in
  [/\ pad le12 Px 0 0 = 1,
      forall i j : 'I_2, ~~ ((i < 1)%N && (j < 1)%N) -> pad le12 Px i j = 0
    & pad (leqnn 1) Px = Px].
Proof.
move=> Px le12.
have [inner outer _] := @pad_block R 1 2 le12 Px.
have [_ _ same] := @pad_block R 1 1 (leqnn 1) Px.
split=> //; last by rewrite (same (erefl 1%N)) castmx_id.
have := inner 0 0; rewrite /Px mxE eqxx.
by rewrite (_ : widen_ord _ _ = 0) //; apply: val_inj.
Defined.

Lemma recovered_map_closed_form_witness :
  exists le_xy : (3 + 1 <= 3 + 1)%N,
    1%:M = matched le_xy (tetrahedron R) id *m (Xc (tetrahedron R))^T
           *m invmx (Xc (tetrahedron R) *m (Xc (tetrahedron R))^T).
Proof.
have [le_xy [L0E _ _ _]] := recovered_map_closed_form
  (tetrahedron_run idle schedule_in_order).
by exists le_xy.
Defined.

Lemma matching_deterministic_witness :
  aggregated svd exp np_random_seed (@quadratic_assignment R) le44
    (tetrahedron R) (tetrahedron R) idle in_order 2 =
  aggregated svd exp np_random_seed (@quadratic_assignment R) le44
    (tetrahedron R) (tetrahedron R) busy out_of_order 2 /\
  (granni 1%:M (tetrahedron R) (tetrahedron R) idle in_order 2).2 =
  (granni 1%:M (tetrahedron R) (tetrahedron R) busy out_of_order 2).2.
Proof.
have [_ mat _ res] := @matching_deterministic R svd exp rng np_random_seed
  (@quadratic_assignment R) (@linear_sum_assignment R) 3 (3 + 1) 3 (3 + 1)
  le44 1%:M (tetrahedron R) (tetrahedron R) 2 1 2 idle busy in_order
  out_of_order schedule_in_order schedule_out_of_order.
by split.
Defined.

Lemma cardinality_rejected_first_witness :
  let r := granni 1%:M (pair R) (single R) idle in_order 2 in
  r.1 = [::] /\ r.2 = inl AssertCardinality.
Proof.
have [log _ card] := @cardinality_rejected_first R svd exp rng np_random_seed
  (@quadratic_assignment R) (@linear_sum_assignment R) 3 2 3 1
  1%:M (pair R) (single R) idle in_order 2 isT.
by split; [exact: log | exact: card].
Defined.

(* Two points only, one worker: the whole pipeline is run through. *)
Lemma degenerate_geometry_unchecked_witness :
  let r := granni 1%:M (pair R) (pair R) idle in_order 2 in
  perm_eq (Pool.tasks in_order) (iota 0 2) /\
  r.1 = [:: Centering; Projection; Padding; Trial 0; Trial 1;
            Aggregation; Assignment; Estimation].
Proof.
have [tasks log _] := @degenerate_geometry_unchecked R svd exp rng
  np_random_seed (@quadratic_assignment R) (@linear_sum_assignment R) 3 2 3 2
  1%:M (pair R) (pair R) 1 idle in_order 2 (erefl 3%N) (erefl 3%N) isT
  schedule_in_order.
by split.
Defined.

(* Twice the same point: the centered cloud is the zero array.  Both trials
   start, trial 1 first, and the exception comes from the inversion of the
   zero array in the last line. *)
Lemma degenerate_geometry_dispatches_first :
  let r := granni 1%:M (pair R) (pair R) busy out_of_order 2 in
  [/\ Xc (pair R) *m (Xc (pair R))^T = 0,
      r.1 = [:: Centering; Projection; Padding; Trial 1; Trial 0;
                Aggregation; Assignment; Estimation]
    & r.2 = inl LinAlgErrorSingular].
Proof.
rewrite /= /granni.
have le22 : (2 <= 2)%N by [].
have run := granni_degenerate svd exp np_random_seed (@quadratic_assignment R)
  (@linear_sum_assignment R) (pair R) 1%:M le22 busy (erefl 3%N) (erefl 3%N)
  isT schedule_out_of_order pair_singular.
by split; [rewrite /Xc pair_centered mul0mx | rewrite run | rewrite run].
Qed.

End Witnesses.

(* ===================================================================== *)
(*  Further lemmas                                                       *)
(* ===================================================================== *)

Section CenteringLemmas.

Variable F : realFieldType.

(* Centering is the product with the centering matrix I - J/n. *)
Lemma barycentered_mul d n (A : 'M[F]_(d, n)) :
  barycentered A = A *m (1%:M - n%:R^-1 *: const_mx 1).
Proof.
apply/matrixP=> i j; rewrite barycenteredE barE mulmxBr mulmx1 !mxE.
congr (_ - _); rewrite mulr_suml; apply: eq_bigr => l _.
by rewrite !mxE mulr1.
Qed.

Lemma bar_mul d n (A : 'M[F]_(d, n)) :
  bar A = n%:R^-1 *: (A *m const_mx 1)^T.
Proof.
apply/rowP=> i; rewrite barE !mxE mulrC; congr (_ * _).
by apply: eq_bigr => l _; rewrite !mxE mulr1.
Qed.

Lemma bar_linear d e n (L : 'M[F]_(e, d)) (A : 'M[F]_(d, n)) :
  bar (L *m A) = bar A *m L^T.
Proof. by rewrite !bar_mul -mulmxA trmx_mul scalemxAl. Qed.

Lemma barycentered_linear d e n (L : 'M[F]_(e, d)) (A : 'M[F]_(d, n)) :
  barycentered (L *m A) = L *m barycentered A.
Proof. by rewrite !barycentered_mul mulmxA. Qed.

Lemma const_centering m n : (0 < n)%N ->
  (const_mx 1 : 'M[F]_(m, n)) *m (1%:M - n%:R^-1 *: const_mx 1) = 0.
Proof.
move=> n_gt0; apply/matrixP=> i j; rewrite mulmxBr mulmx1 !mxE.
rewrite (eq_bigr (fun=> n%:R^-1)) => [l _|]; first by rewrite !mxE mul1r mulr1.
rewrite sumr_const card_ord -[_ *+ n]mulr_natr mulVf ?subrr //.
by rewrite pnatr_eq0 -lt0n.
Qed.

Lemma barycentered_translate d n (A : 'M[F]_(d, n)) (t : 'cV[F]_d) :
  (0 < n)%N -> barycentered (A + t *m const_mx 1) = barycentered A.
Proof.
move=> n_gt0; rewrite !barycentered_mul mulmxDl -mulmxA const_centering //.
by rewrite mulmx0 addr0.
Qed.

Lemma bar_translate d n (A : 'M[F]_(d, n)) (t : 'cV[F]_d) :
  (0 < n)%N -> bar (A + t *m const_mx 1) = bar A + t^T.
Proof.
move=> n_gt0; rewrite !bar_mul mulmxDl linearD /= scalerDr; congr (_ + _).
rewrite -mulmxA trmx_mul; set J := const_mx 1 *m _.
have -> : J = n%:R%:M.
  apply/matrixP=> a b; rewrite !ord1 !mxE eqxx mulr1n.
  rewrite (eq_bigr (fun=> 1)) => [l _|]; first by rewrite !mxE mulr1.
  by rewrite sumr_const card_ord.
rewrite tr_scalar_mx mul_scalar_mx scalerA mulVf ?scale1r //.
by rewrite pnatr_eq0 -lt0n.
Qed.

(* I[s], the rows s of the identity, is the matrix of the relabelling s. *)
Lemma colsub_mul d n (s : 'I_n -> 'I_n) (A : 'M[F]_(d, n)) :
  colsub s A = A *m (rowsub s 1%:M)^T.
Proof.
apply/matrixP=> i j; rewrite !mxE (bigD1 (s j)) //= !mxE eqxx mulr1.
rewrite big1 ?addr0 // => l ne; rewrite !mxE eq_sym (negbTE ne) mulr0 //.
Qed.

Lemma selection_orthogonal n (s : 'I_n -> 'I_n) :
  injective s -> orthogonal (rowsub s (1%:M : 'M[F]_n)).
Proof.
move=> inj; apply/matrixP=> a b; rewrite !mxE (bigD1 (s a)) //= !mxE eqxx mul1r.
rewrite big1 ?addr0 ?(inj_eq inj) 1?eq_sym // => l ne.
by rewrite !mxE eq_sym (negbTE ne) mul0r.
Qed.

Lemma const_selection_tr m n (s : 'I_n -> 'I_n) :
  (const_mx 1 : 'M[F]_(m, n)) *m (rowsub s 1%:M)^T = const_mx 1.
Proof. by rewrite -colsub_mul; apply/matrixP=> i j; rewrite !mxE. Qed.

Lemma const_selection m n (s : 'I_n -> 'I_n) : injective s ->
  (const_mx 1 : 'M[F]_(m, n)) *m rowsub s 1%:M = const_mx 1.
Proof.
move=> inj; rewrite -{1}(const_selection_tr m s) -mulmxA.
by rewrite (orthogonal_tr (selection_orthogonal inj)) mulmx1.
Qed.

Lemma selection_const m n (s : 'I_n -> 'I_n) :
  rowsub s 1%:M *m (const_mx 1 : 'M[F]_(n, m)) = const_mx 1.
Proof.
by apply: trmx_inj; rewrite trmx_mul !trmx_const const_selection_tr.
Qed.

Lemma centering_selection n (s : 'I_n -> 'I_n) : injective s ->
  rowsub s 1%:M *m (1%:M - n%:R^-1 *: const_mx 1)
  = (1%:M - n%:R^-1 *: const_mx 1 : 'M[F]_n) *m rowsub s 1%:M.
Proof.
move=> inj; rewrite mulmxBr mulmxBl mulmx1 mul1mx -scalemxAr -scalemxAl.
by rewrite selection_const const_selection.
Qed.

Lemma barycentered_relabel d n (s : 'I_n -> 'I_n) (A : 'M[F]_(d, n)) :
  injective s -> barycentered (colsub s A) = colsub s (barycentered A).
Proof.
move=> inj; rewrite !colsub_mul !barycentered_mul -!mulmxA; congr (_ *m _).
have sym : (1%:M - n%:R^-1 *: const_mx 1 : 'M[F]_n)^T = 1%:M - n%:R^-1 *: const_mx 1.
  by rewrite linearB /= trmx1 linearZ /= trmx_const.
by apply: trmx_inj; rewrite !trmx_mul trmxK sym centering_selection.
Qed.

Lemma bar_relabel d n (s : 'I_n -> 'I_n) (A : 'M[F]_(d, n)) :
  injective s -> bar (colsub s A) = bar A.
Proof.
move=> inj; rewrite !bar_mul colsub_mul -mulmxA; congr (_ *: (_ *m _)^T).
by apply: trmx_inj; rewrite trmx_mul trmxK trmx_const const_selection.
Qed.

Lemma barycentered_sums d n (A : 'M[F]_(d, n)) : (0 < n)%N ->
  barycentered A *m (const_mx 1 : 'cV[F]_n) = 0.
Proof.
move=> n_gt0; apply: trmx_inj; rewrite trmx_mul trmx_const trmx0.
rewrite barycentered_mul trmx_mul mulmxA linearB /= trmx1 linearZ /= trmx_const.
by rewrite const_centering // mul0mx.
Qed.

Lemma rank_const_col n : (0 < n)%N -> \rank (const_mx 1 : 'cV[F]_n) = 1.
Proof.
move=> n_gt0; apply/eqP; rewrite eqn_leq rank_leq_col lt0n mxrank_eq0.
apply/eqP => /matrixP /(_ (Ordinal n_gt0) ord0); rewrite !mxE.
by move/eqP; rewrite oner_eq0.
Qed.

Lemma rank_barycentered d n (A : 'M[F]_(d, n)) :
  (0 < n)%N -> (\rank (barycentered A) < n)%N.
Proof.
move=> n_gt0; have := mulmx0_rank_max (barycentered_sums A n_gt0).
by rewrite rank_const_col // addn1.
Qed.

Lemma rowsub_comp n (s t : 'I_n -> 'I_n) :
  rowsub s (1%:M : 'M[F]_n) *m rowsub t 1%:M = rowsub (t \o s) 1%:M.
Proof.
apply/matrixP=> a b; rewrite !mxE (bigD1 (s a)) //= !mxE eqxx mul1r.
rewrite big1 ?addr0 // => l ne.
by rewrite !mxE eq_sym (negbTE ne) mul0r.
Qed.

Lemma rowsub_id n : rowsub id (1%:M : 'M[F]_n) = 1%:M.
Proof. by apply/matrixP=> a b; rewrite !mxE. Qed.

Lemma colsub_comp d n (s t : 'I_n -> 'I_n) (A : 'M[F]_(d, n)) :
  colsub s (colsub t A) = colsub (t \o s) A.
Proof. by apply/matrixP=> a b; rewrite !mxE. Qed.

Lemma colsub_id d n (A : 'M[F]_(d, n)) : colsub id A = A.
Proof. by apply/matrixP=> a b; rewrite !mxE. Qed.

End CenteringLemmas.

Section GramLemmas.

Variable F : realFieldType.

Lemma frobenius_ge0 m n (A : 'M[F]_(m, n)) : 0 <= \tr (A *m A^T).
Proof.
rewrite /mxtrace; apply: sumr_ge0 => i _; rewrite mxE; apply: sumr_ge0 => j _.
by rewrite !mxE -expr2 sqr_ge0.
Qed.

Lemma gram_eq0 m n (A : 'M[F]_(m, n)) : A *m A^T = 0 -> A = 0.
Proof.
move=> AA0; apply/matrixP=> i j; rewrite [RHS]mxE.
have /eqP := congr1 (fun B : 'M_m => B i i) AA0; rewrite !mxE.
rewrite psumr_eq0 => [l _|/allP /(_ j (mem_index_enum j))].
  by rewrite !mxE -expr2 sqr_ge0.
by rewrite /= !mxE -expr2 sqrf_eq0 => /eqP.
Qed.

Lemma gram_unit d k (X : 'M[F]_(d, k)) :
  (X *m X^T \in unitmx) = (\rank X == d).
Proof.
apply/idP/eqP => [unitG|rkX].
  apply/eqP; rewrite eqn_leq rank_leq_row /=.
  by move: unitG; rewrite -row_full_unit => /eqP {1}<-; apply: mxrankM_maxl.
rewrite -row_free_unit -kermx_eq0 -submx0.
have: kermx (X *m X^T) *m X = 0.
  apply: gram_eq0; rewrite trmx_mul mulmxA -(mulmxA _ X) mulmx_ker mul0mx //.
move/sub_kermxP; move/eqP: rkX; rewrite -/(row_free X) -kermx_eq0 => /eqP -> //.
Qed.

Lemma row_projector_unique d k r (X : 'M[F]_(d, k)) (K : 'M[F]_(r, k))
    (B : 'M[F]_(r, d)) :
  X *m X^T \in unitmx -> K = B *m X -> (K^T *m K) *m X^T = X^T ->
  K^T *m K = X^T *m invmx (X *m X^T) *m X.
Proof.
move=> unitG KE fixX; set Q := X^T *m _ *m X.
have PQ : K^T *m K *m Q = Q by rewrite /Q !mulmxA fixX.
have XQ : X *m Q = X by rewrite /Q !mulmxA mulmxV // mul1mx.
have KQ : K *m Q = K by rewrite KE -mulmxA XQ.
by rewrite -[RHS]PQ -mulmxA KQ.
Qed.

Lemma pid_mx_id k m : (k <= m)%N -> (pid_mx m : 'M[F]_k) = 1%:M.
Proof.
move=> le_km; apply/matrixP=> i j; rewrite !mxE.
by rewrite (leq_trans (ltn_ord i) le_km) andbT.
Qed.

Lemma rank_mul_unit d k (L : 'M[F]_d) (X : 'M[F]_(d, k)) :
  L \in unitmx -> \rank (L *m X) = \rank X.
Proof.
by move=> unitL; rewrite -mxrank_tr trmx_mul mxrankMfree ?mxrank_tr // row_free_unit unitmx_tr.
Qed.

Lemma rank_mul_orthogonal d k (X : 'M[F]_(d, k)) (S : 'M[F]_k) :
  orthogonal S -> \rank (X *m S) = \rank X.
Proof. by move=> /orthogonal_unit unitS; rewrite mxrankMfree // row_free_unit. Qed.

Lemma congruence_inv n (L G : 'M[F]_n) :
  L \in unitmx -> G \in unitmx ->
  L^T *m invmx (L *m G *m L^T) *m L = invmx G.
Proof.
move=> unitL unitG.
have unitH : L *m G *m L^T \in unitmx.
  by rewrite !unitmx_mul unitL unitG unitmx_tr.
apply: (can_inj (mulKmx unitG)); rewrite mulmxV //.
apply: (can_inj (mulKmx unitL)); rewrite mulmx1.
by rewrite !mulmxA mulmxV // mul1mx.
Qed.

Lemma gram_projector_linear d k (L : 'M[F]_d) (X : 'M[F]_(d, k)) :
  L \in unitmx -> X *m X^T \in unitmx ->
  (L *m X)^T *m invmx ((L *m X) *m (L *m X)^T) *m (L *m X)
  = X^T *m invmx (X *m X^T) *m X.
Proof.
move=> unitL unitG; rewrite -(congruence_inv unitL unitG).
by rewrite trmx_mul !mulmxA.
Qed.

Lemma gram_projector_orthogonal d k (X : 'M[F]_(d, k)) (S : 'M[F]_k) :
  orthogonal S ->
  (X *m S)^T *m invmx ((X *m S) *m (X *m S)^T) *m (X *m S)
  = S^T *m (X^T *m invmx (X *m X^T) *m X) *m S.
Proof.
move=> orthS; rewrite !trmx_mul !mulmxA -(mulmxA X S) orthS mulmx1.
by [].
Qed.

Lemma projector_trace_ge0 n (P Q : 'M[F]_n) :
  P^T = P -> P *m P = P -> Q^T = Q -> Q *m Q = Q -> 0 <= \tr (P *m Q).
Proof.
move=> symP idemP symQ idemQ.
have <- : \tr ((P *m Q) *m (P *m Q)^T) = \tr (P *m Q).
  rewrite trmx_mul symP symQ mulmxA -(mulmxA P Q Q) idemQ.
  by rewrite mxtrace_mulC mulmxA idemP.
exact: frobenius_ge0.
Qed.

Lemma projector_trace_le n (P Q : 'M[F]_n) :
  P^T = P -> P *m P = P -> Q^T = Q -> Q *m Q = Q -> \tr (P *m Q) <= \tr P.
Proof.
move=> symP idemP symQ idemQ; rewrite -subr_ge0.
have -> : \tr P - \tr (P *m Q) = \tr (P *m (1%:M - Q)).
  by rewrite mulmxBr mulmx1 raddfB.
apply: projector_trace_ge0 => //; first by rewrite linearB /= trmx1 symQ.
by rewrite mulmxBl !mulmxBr !mulmx1 mul1mx idemQ subrr subr0.
Qed.

Lemma conjugate_projector n (S Q : 'M[F]_n) :
  orthogonal S -> Q^T = Q -> Q *m Q = Q ->
  (S *m Q *m S^T)^T = S *m Q *m S^T
  /\ (S *m Q *m S^T) *m (S *m Q *m S^T) = S *m Q *m S^T.
Proof.
move=> orthS symQ idemQ; split; first exact: congruence_symT.
rewrite !mulmxA -(mulmxA _ S^T S) (orthogonal_tr orthS) mulmx1.
by rewrite -(mulmxA S Q Q) idemQ.
Qed.

Lemma normal_equations d e n (X : 'M[F]_(d, n)) (Ym : 'M[F]_(e, n)) :
  X *m X^T \in unitmx ->
  (Ym - Ym *m X^T *m invmx (X *m X^T) *m X) *m X^T = 0.
Proof.
by move=> unitG; rewrite mulmxBl -!mulmxA mulVmx // mulmx1 subrr.
Qed.

Lemma frobenius_pythagoras e n (A B : 'M[F]_(e, n)) :
  A *m B^T = 0 -> \tr ((A + B) *m (A + B)^T) = \tr (A *m A^T) + \tr (B *m B^T).
Proof.
move=> AB0; rewrite linearD /= mulmxDl !mulmxDr AB0 addr0.
have -> : B *m A^T = 0 by apply: trmx_inj; rewrite trmx_mul trmxK AB0 trmx0.
by rewrite add0r raddfD.
Qed.

Lemma least_squares d e n (X : 'M[F]_(d, n)) (Ym : 'M[F]_(e, n))
    (L' : 'M[F]_(e, d)) :
  X *m X^T \in unitmx ->
  let L0 := Ym *m X^T *m invmx (X *m X^T) in
  \tr ((Ym - L0 *m X) *m (Ym - L0 *m X)^T)
  <= \tr ((Ym - L' *m X) *m (Ym - L' *m X)^T).
Proof.
move=> unitG /=; set L0 := Ym *m X^T *m invmx _.
have -> : Ym - L' *m X = (Ym - L0 *m X) + (L0 - L') *m X.
  by rewrite mulmxBl addrA subrK.
rewrite (@frobenius_pythagoras _ _ (Ym - L0 *m X) ((L0 - L') *m X)).
  by rewrite trmx_mul mulmxA normal_equations // mul0mx.
by rewrite lerDl frobenius_ge0.
Qed.

Lemma exact_fit d e n (X : 'M[F]_(d, n)) (L1 : 'M[F]_(e, d)) :
  X *m X^T \in unitmx ->
  (L1 *m X) *m X^T *m invmx (X *m X^T) = L1.
Proof. by move=> unitG; rewrite -!mulmxA (mulmxA X) mulmxV // mulmx1. Qed.

End GramLemmas.

Section ClosedForm.

Variable F : realFieldType.
Variable svd : forall d k : nat, 'M[F]_(d, k) -> svd_result F d k.
Variables d k : nat.
Variable X : 'M[F]_(d, k).
Hypothesis svdX : is_svd X (svd X).

Lemma leading_rows_span : \rank X = d ->
  exists B : 'M[F]_(minn d k, d), leading_rows d (svd X).2 = B *m X.
Proof.
move=> rkX; have unitS := svd_full_rank svdX rkX.
exists (invmx (diag_mx (svd X).1.2) *m (pid_mx (minn d k))^T *m ((svd X).1.1)^T).
set B := invmx _ *m _ *m _; set K := leading_rows _ _.
suff: B *m ((svd X).1.1 *m pid_mx (minn d k) *m diag_mx (svd X).1.2 *m K) = K.
  by rewrite -(svd_factorization svdX).
rewrite /B -!mulmxA (mulmxA ((svd X).1.1)^T).
rewrite (orthogonal_tr (svd_orthoU svdX)) mul1mx (mulmxA (pid_mx _)^T).
rewrite (mulmxA ((pid_mx _)^T *m _)) pid_colK mul1mx.
by rewrite (mulmxA (invmx _)) mulVmx // mul1mx.
Qed.

Lemma ortho_proj_ker_gram : \rank X = d ->
  ortho_proj_ker svd X = X^T *m invmx (X *m X^T) *m X.
Proof.
move=> rkX; have unitG : X *m X^T \in unitmx by rewrite gram_unit rkX.
have [B KE] := leading_rows_span rkX.
have := proj_rows svdX; rewrite (ortho_proj_kerE svd X).
exact: row_projector_unique KE.
Qed.

Lemma ortho_proj_ker_few : (k <= d)%N -> ortho_proj_ker svd X = 1%:M.
Proof.
move=> le_kd; rewrite (ortho_proj_kerE svd X) leading_rowsE trmx_mul -mulmxA.
rewrite (mulmxA (pid_mx _)^T) tr_pid_mx mul_pid_mx pid_mx_id ?mul1mx.
  by rewrite !minnn (minn_idPr le_kd).
by apply: orthogonal_tr; apply: svd_orthoV.
Qed.

End ClosedForm.

Section Invariance.

Variable F : realFieldType.
Variable svd : forall d k : nat, 'M[F]_(d, k) -> svd_result F d k.
Variables d k : nat.
Variable X : 'M[F]_(d, k).
Hypothesis svdX : is_svd X (svd X).
Hypothesis rankX : \rank X = d.

Lemma ortho_proj_ker_linear (L : 'M[F]_d) :
  is_svd (L *m X) (svd (L *m X)) -> L \in unitmx ->
  ortho_proj_ker svd (L *m X) = ortho_proj_ker svd X.
Proof.
move=> svdLX unitL; rewrite !ortho_proj_ker_gram ?rank_mul_unit //.
by apply: gram_projector_linear; rewrite ?gram_unit ?rankX.
Qed.

Lemma ortho_proj_ker_orthogonal (S : 'M[F]_k) :
  is_svd (X *m S) (svd (X *m S)) -> orthogonal S ->
  ortho_proj_ker svd (X *m S) = S^T *m ortho_proj_ker svd X *m S.
Proof.
move=> svdXS orthS; rewrite !ortho_proj_ker_gram ?rank_mul_orthogonal //.
exact: gram_projector_orthogonal.
Qed.

Lemma ortho_proj_ker_colsub (s : 'I_k -> 'I_k) :
  is_svd (colsub s X) (svd (colsub s X)) -> injective s ->
  ortho_proj_ker svd (colsub s X) = rowsub s (colsub s (ortho_proj_ker svd X)).
Proof.
move=> svdXs inj; have orthS := selection_orthogonal F inj.
have orthS' : orthogonal (rowsub s (1%:M : 'M[F]_k))^T.
  by rewrite /orthogonal trmxK; apply: orthogonal_tr.
move: svdXs; rewrite colsub_mul => svdXs.
rewrite (ortho_proj_ker_orthogonal svdXs orthS') trmxK -colsub_mul.
by rewrite mul_rowsub_mx mul1mx; apply/matrixP=> a b; rewrite !mxE.
Qed.

End Invariance.

Section PadAlgebra.

Variable F : realFieldType.

Lemma castmx_block_tr n p m (e : (n + p = m)%N) (A : 'M[F]_(n + p)) :
  (castmx (e, e) A)^T = castmx (e, e) A^T.
Proof. by case: _ / e. Qed.

Lemma castmx_block_mul n p m (e : (n + p = m)%N) (A B : 'M[F]_(n + p)) :
  castmx (e, e) A *m castmx (e, e) B = castmx (e, e) (A *m B).
Proof. by case: _ / e. Qed.

Lemma castmx_block_trace n p m (e : (n + p = m)%N) (A : 'M[F]_(n + p)) :
  \tr (castmx (e, e) A) = \tr A.
Proof. by case: _ / e. Qed.

Variables num_x num_y : nat.
Hypothesis le_xy : (num_x <= num_y)%N.

Lemma pad_tr (P : 'M[F]_num_x) : (pad le_xy P)^T = pad le_xy P^T.
Proof. by rewrite /pad castmx_block_tr tr_block_mx !trmx0. Qed.

Lemma pad_mul (P Q : 'M[F]_num_x) :
  pad le_xy P *m pad le_xy Q = pad le_xy (P *m Q).
Proof.
rewrite /pad castmx_block_mul mulmx_block !trmx0.
by rewrite !mulmx0 !mul0mx !addr0.
Qed.

Lemma pad_trace (P : 'M[F]_num_x) : \tr (pad le_xy P) = \tr P.
Proof. by rewrite /pad castmx_block_trace mxtrace_block mxtrace0 addr0. Qed.

End PadAlgebra.

Section PsdFitMore.

Variable F : realFieldType.
Variable svd : forall d k : nat, 'M[F]_(d, k) -> svd_result F d k.
Variables d k : nat.
Variables X Y : 'M[F]_(d, k).
Hypothesis svdX : is_svd X (svd X).

(* On a full-rank X the factor Lx is invertible and psd_fit returns. *)
Lemma psd_fit_defined :
  \rank X = d -> exists P, psd_fit svd X Y = Some P.
Proof.
move=> rkX; have le_dk : (d <= k)%N by rewrite -rkX rank_leq_col.
rewrite /psd_fit; case: {-}_ / idP => // le'.
case: (svd (_ *m _)) => [[W Sigma] V] /=.
by rewrite /inv (svd_factor_unit le' svdX rkX); eexists.
Qed.

(* Ux @ np.diag(Sigma_x) multiplies a (d, d) by a (k, k) array when
   k < d. *)
Lemma psd_fit_shape : (k < d)%N -> psd_fit svd X Y = None.
Proof.
move=> lt_kd; rewrite /psd_fit; case: {-}_ / idP => // le_dk.
by move: lt_kd; rewrite ltnNge le_dk.
Qed.

Lemma psd_fit_unit (le_dk : (d <= k)%N) P :
  let Lxy := (svd_factor svd le_dk X)^T *m svd_factor svd le_dk Y in
  is_svd Y (svd Y) -> is_svd Lxy (svd Lxy) ->
  \rank X = d -> \rank Y = d ->
  psd_fit svd X Y = Some P -> P \in unitmx.
Proof.
move=> Lxy svdY svdXY rkX rkY; rewrite (psd_fitE le_dk Y svdX rkX) => -[<-].
have := psd_fit_ellipsoid svdX svdY svdXY rkX; set P0 := _ *m _ *m invmx _.
move=> /= ellipsoid; have : Y *m Y^T \in unitmx by rewrite gram_unit rkY.
by rewrite -ellipsoid !unitmx_mul => /andP[/andP[]].
Qed.

End PsdFitMore.

Section PipelineMore.

Variable F : realFieldType.
Variable svd : forall d k : nat, 'M[F]_(d, k) -> svd_result F d k.
Variable exp : F -> F.
Variable rng : Type.
Variable np_random_seed : nat -> rng.
Variable quadratic_assignment :
  forall m : nat, 'M[F]_m -> 'M[F]_m -> rng -> ('I_m -> 'I_m) * rng.
Variable linear_sum_assignment :
  forall m : nat, 'M[F]_m -> ('I_m -> 'I_m) * ('I_m -> 'I_m).

Local Notation f_opt := (f_opt exp np_random_seed quadratic_assignment).
Local Notation trials := (trials svd exp np_random_seed quadratic_assignment).
Local Notation aggregated :=
  (aggregated svd exp np_random_seed quadratic_assignment).
Local Notation correspondence :=
  (correspondence svd exp np_random_seed quadratic_assignment
     linear_sum_assignment).
Local Notation granni_core :=
  (granni_core svd exp np_random_seed quadratic_assignment
     linear_sum_assignment).
Local Notation granni_point_clouds :=
  (granni_point_clouds svd exp np_random_seed quadratic_assignment
     linear_sum_assignment).

Local Notation acceptE :=
  (granni_accept svd exp np_random_seed quadratic_assignment
     linear_sum_assignment).
Local Notation coreE :=
  (granni_coreE svd exp np_random_seed quadratic_assignment
     linear_sum_assignment).
Local Notation sizeE := (size_trials svd exp np_random_seed quadratic_assignment).


(* With these, a centered X of full rank is enough. *)
Lemma granni_returns_full_rank dx num_x dy num_y (L : 'M[F]_dim)
    (X : 'M[F]_(dx, num_x)) (Y : 'M[F]_(dy, num_y)) init sched n_iter workers :
  Pool.schedule_of workers n_iter sched ->
  dx = 3 -> dy = 3 -> (0 < num_x <= num_y)%N -> (0 < n_iter)%N ->
  \rank (Xc X) = dx ->
  exists LL0, (granni_point_clouds L X Y init sched n_iter).2 = inr LL0.
Proof.
move=> ok dx3 dy3 /andP[x_gt0 le_xy] n_gt0 rkX.
exists (L, matched le_xy Y (correspondence le_xy X Y init sched n_iter)
             *m (Xc X)^T *m invmx (Xc X *m (Xc X)^T)).
rewrite (acceptE X Y L _ _ _ le_xy) // coreE x_gt0.
rewrite /nilp (sizeE le_xy X Y init ok) gram_unit rkX eqxx.
by case: n_iter n_gt0 {ok}.
Qed.

(* Centering leaves rank at most n - 1: with no more points than rows the
   matrix that the last line inverts is singular. *)
Lemma gram_few_points dx num_x (X : 'M[F]_(dx, num_x)) :
  (0 < num_x <= dx)%N -> Xc X *m (Xc X)^T \notin unitmx.
Proof.
case/andP=> x_gt0 le_xd; rewrite gram_unit neq_ltn; apply/orP; left.
exact: leq_trans (rank_barycentered X x_gt0) le_xd.
Qed.

Lemma granni_log dx num_x dy num_y (L : 'M[F]_dim)
    (X : 'M[F]_(dx, num_x)) (Y : 'M[F]_(dy, num_y)) init sched n_iter LL0 :
  (granni_point_clouds L X Y init sched n_iter).2 = inr LL0 ->
  (granni_point_clouds L X Y init sched n_iter).1 =
  [:: Centering; Projection; Padding] ++
  [seq Trial t | t <- Pool.tasks sched] ++
  [:: Aggregation; Assignment; Estimation].
Proof.
move=> ret; have [dx3 dy3 le_xy] := granni_returns ret.
move: ret; rewrite (acceptE X Y L _ _ _ le_xy) // coreE.
by case: (0 < num_x)%N => //; case: (nilp _).
Qed.

Lemma granni_map dx num_x dy num_y (le_xy : (num_x <= num_y)%N)
    (L : 'M[F]_dim) (X : 'M[F]_(dx, num_x)) (Y : 'M[F]_(dy, num_y))
    init sched n_iter L' L0 :
  (granni_point_clouds L X Y init sched n_iter).2 = inr (L', L0) ->
  Xc X *m (Xc X)^T \in unitmx /\
  L0 = matched le_xy Y (correspondence le_xy X Y init sched n_iter)
       *m (Xc X)^T *m invmx (Xc X *m (Xc X)^T).
Proof.
move=> ret; have [dx3 dy3 _] := granni_returns ret.
move: ret; rewrite (acceptE X Y L _ _ _ le_xy) // coreE.
case: (0 < num_x)%N => //; case: (nilp _) => //=.
by case: ifP => // unitG [_ <-].
Qed.

Section Operators.

Variables dx num_x dy num_y : nat.
Hypothesis le_xy : (num_x <= num_y)%N.
Variable X : 'M[F]_(dx, num_x).
Variable Y : 'M[F]_(dy, num_y).
Hypothesis svdX : is_svd (Xc X) (svd (Xc X)).
Hypothesis svdY : is_svd (Yc Y) (svd (Yc Y)).

Lemma Px_sym : (Px svd le_xy X)^T = Px svd le_xy X.
Proof. by rewrite /Px pad_tr proj_sym. Qed.

Lemma Px_idem : Px svd le_xy X *m Px svd le_xy X = Px svd le_xy X.
Proof. by rewrite /Px pad_mul proj_idem. Qed.

Lemma Px_trace : \tr (Px svd le_xy X) = (minn dx num_x)%:R.
Proof. by rewrite /Px pad_trace proj_trace. Qed.

Lemma trace_bounds (ind : 'I_num_y -> 'I_num_y) :
  injective ind ->
  let s := rowsub ind (I F num_y) in
  0 <= \tr (Px svd le_xy X *m s *m Py svd Y *m s^T) <= (minn dx num_x)%:R.
Proof.
move=> inj /=; set s := rowsub _ _; rewrite -Px_trace -!mulmxA !(mulmxA s).
have [symQ idemQ] := conjugate_projector (selection_orthogonal F inj)
                       (proj_sym svd (Yc Y)) (proj_idem svdY).
rewrite projector_trace_ge0 ?projector_trace_le //;
  by [exact: Px_sym | exact: Px_idem].
Qed.

End Operators.

Lemma matched_same d n (le_nn : (n <= n)%N) (Y : 'M[F]_(d, n))
    (col_ind : 'I_n -> 'I_n) :
  matched le_nn Y col_ind = colsub col_ind (Yc Y).
Proof.
apply/matrixP=> a b; rewrite !mxE; congr (_ - _); congr (Y _ (col_ind _)).
exact: val_inj.
Qed.

Section Image.

Variables d e n : nat.
Hypothesis le_nn : (n <= n)%N.
Variable X : 'M[F]_(d, n).
Variable Y : 'M[F]_(e, n).
Variable L1 : 'M[F]_(e, d).
Variable sigma : 'I_n -> 'I_n.
Hypothesis YE : Y = colsub sigma (L1 *m X).
Hypothesis inj_sigma : injective sigma.

Lemma Yc_relabelled : Yc Y = colsub sigma (L1 *m Xc X).
Proof. by rewrite /Yc /Xc YE barycentered_relabel // barycentered_linear. Qed.

Lemma matched_relabelled (col_ind : 'I_n -> 'I_n) :
  cancel col_ind sigma -> matched le_nn Y col_ind = L1 *m Xc X.
Proof.
move=> indK; rewrite matched_same Yc_relabelled colsub_comp.
by apply/matrixP=> a b; rewrite !mxE /= indK.
Qed.

End Image.

Section Relabelled.

Variables d n : nat.
Hypothesis le_nn : (n <= n)%N.
Variable X Y : 'M[F]_(d, n).
Variable L1 : 'M[F]_d.
Variable sigma : 'I_n -> 'I_n.
Hypothesis YE : Y = colsub sigma (L1 *m X).
Hypothesis inj_sigma : injective sigma.
Hypothesis svdX : is_svd (Xc X) (svd (Xc X)).
Hypothesis svdY : is_svd (Yc Y) (svd (Yc Y)).
Hypothesis unitL : L1 \in unitmx.
Hypothesis rankX : \rank (Xc X) = d.

Lemma Py_relabelled :
  Py svd Y = rowsub sigma 1%:M *m ortho_proj_ker svd (Xc X)
             *m (rowsub sigma 1%:M)^T.
Proof.
have orthT := selection_orthogonal F inj_sigma.
have orthT' : orthogonal (rowsub sigma (1%:M : 'M[F]_n))^T.
  by rewrite /orthogonal trmxK; apply: orthogonal_tr.
have rankY : \rank (Yc Y) = d.
  by rewrite (Yc_relabelled YE inj_sigma) colsub_mul rank_mul_orthogonal // rank_mul_unit.
rewrite /Py (ortho_proj_ker_gram svdY rankY) (ortho_proj_ker_gram svdX rankX).
rewrite (Yc_relabelled YE inj_sigma) colsub_mul gram_projector_orthogonal // trmxK.
by rewrite gram_projector_linear // gram_unit rankX.
Qed.

Lemma Px_same : Px svd le_nn X = ortho_proj_ker svd (Xc X).
Proof. by rewrite /Px (pad_same le_nn (erefl n)) castmx_id. Qed.

Lemma trace_relabelled (ind : 'I_n -> 'I_n) :
  cancel ind sigma ->
  let s := rowsub ind (I F n) in
  \tr (Px svd le_nn X *m s *m Py svd Y *m s^T) = d%:R.
Proof.
move=> indK /=; rewrite Py_relabelled Px_same.
set P := ortho_proj_ker _ _; set S := rowsub ind _; set T := rowsub sigma _.
have ST : S *m T = 1%:M.
  rewrite /S /T rowsub_comp -[RHS]rowsub_id; apply/matrixP=> a b.
  by rewrite !mxE /= indK.
have -> : P *m S *m (T *m P *m T^T) *m S^T = P *m P.
  rewrite !mulmxA -(mulmxA P S T) ST mulmx1.
  by rewrite -(mulmxA _ T^T) -trmx_mul ST trmx1 mulmx1.
rewrite (proj_idem svdX) (proj_trace svdX).
by move: (rank_leq_col (Xc X)); rewrite rankX => /minn_idPl ->.
Qed.

End Relabelled.

(* The argument of np.exp in f_opt is never positive. *)
Lemma weight_range m (Px Py : 'M[F]_m) i g :
  (forall x, 0 <= exp x) -> (forall x, x <= 0 -> exp x <= 1) ->
  0 <= (f_opt Px Py i g).1.1.1 <= 1.
Proof.
move=> exp_ge0 exp_le1; rewrite /Granni.f_opt.
case: (quadratic_assignment _ _ _) => ind g' /=.
rewrite exp_ge0 /=; apply: exp_le1.
by rewrite mulNr oppr_le0 mulr_ge0 ?ler0n ?sqr_ge0.
Qed.

Lemma selection_row_sum m (ind : 'I_m -> 'I_m) a :
  \sum_b rowsub ind (I F m) a b = 1.
Proof.
rewrite (bigD1 (ind a)) //= !mxE eqxx big1 ?addr0 // => b ne.
by rewrite !mxE eq_sym (negbTE ne).
Qed.

Lemma selection_ge0 m (ind : 'I_m -> 'I_m) a b : 0 <= rowsub ind (I F m) a b.
Proof. by rewrite !mxE ler0n. Qed.

Lemma aggregateE m (vals : seq (F * 'M[F]_m * nat)) a b :
  aggregate vals a b = \sum_(v <- vals) v.1.1 * v.1.2 a b.
Proof.
rewrite /aggregate foldl_addE add0r big_map.
elim: vals => [|v vals IH]; first by rewrite !big_nil mxE.
by rewrite !big_cons !mxE IH.
Qed.

Section Aggregate.

Variables dx num_x dy num_y : nat.
Hypothesis le_xy : (num_x <= num_y)%N.
Variable X : 'M[F]_(dx, num_x).
Variable Y : 'M[F]_(dy, num_y).
Variable init : nat -> rng.
Variable sched : seq (Pool.action rng).
Variables n_iter workers : nat.
Hypothesis ok : Pool.schedule_of workers n_iter sched.
Hypothesis exp_ge0 : forall x, 0 <= exp x.

Lemma aggregated_ge0 a b : 0 <= aggregated le_xy X Y init sched n_iter a b.
Proof.
rewrite /Granni.aggregated aggregateE (trialsE _ _ _ _ le_xy X Y init (init 0%N) ok).
rewrite big_map; apply: sumr_ge0 => t _; rewrite /Granni.f_opt.
case: (quadratic_assignment _ _ _) => ind g' /=.
by rewrite mulr_ge0 ?selection_ge0.
Qed.

Lemma aggregated_row_sum a :
  \sum_b aggregated le_xy X Y init sched n_iter a b
  = \sum_(v <- trials le_xy X Y init sched n_iter) v.1.1.
Proof.
rewrite /Granni.aggregated (eq_bigr _ (fun b _ => aggregateE _ a b)).
rewrite exchange_big /= (trialsE _ _ _ _ le_xy X Y init (init 0%N) ok) !big_map.
apply: eq_bigr => t _; rewrite /Granni.f_opt.
case: (quadratic_assignment _ _ _) => ind g' /=.
by rewrite -mulr_sumr selection_row_sum mulr1.
Qed.

End Aggregate.

End PipelineMore.

Section TransformLemmas.
Variable F : realFieldType.

Lemma homogeneousE (L : 'M[F]_3) : homogeneous L = block_mx L 0 0 1%:M.
Proof.
by rewrite /homogeneous /np_c tr_row_mx trmxK tr_col_mx trmx0 trmx1.
Qed.

Lemma homogeneous_points n (L : 'M[F]_3) (V : 'M[F]_(3, n)) :
  homogeneous L *m col_mx V (const_mx 1) = col_mx (L *m V) (const_mx 1).
Proof.
by rewrite homogeneousE mul_block_col !mul0mx mul1mx addr0 add0r.
Qed.

Lemma homogeneousM (A B : 'M[F]_3) :
  homogeneous (A *m B) = homogeneous A *m homogeneous B.
Proof.
rewrite !homogeneousE mulmx_block !mulmx0 !mul0mx mulmx1.
by rewrite !addr0 add0r.
Qed.

Lemma homogeneous1 : homogeneous (1%:M : 'M[F]_3) = 1%:M.
Proof. by rewrite homogeneousE -scalar_mx_block. Qed.

Lemma det_homogeneous (L : 'M[F]_3) : \det (homogeneous L) = \det L.
Proof. by rewrite homogeneousE det_ublock det1 mulr1. Qed.

Lemma preimage_transformationE (L L0 : 'M[F]_3) :
  L0 \in unitmx ->
  preimage_transformation L L0 = Some (homogeneous (invmx L0 *m L)).
Proof. by rewrite /preimage_transformation /inv => ->. Qed.
End TransformLemmas.

Section RandomLemmas.
Variable F : realFieldType.

Lemma orthogonal_det n (Q : 'M[F]_n) : orthogonal Q -> \det Q ^+ 2 = 1.
Proof. by move=> /(congr1 determinant); rewrite det_mulmx det_tr det1 expr2. Qed.

Lemma flip_last_orthogonal n : orthogonal (flip_last F n).
Proof.
rewrite /orthogonal /flip_last tr_diag_mx mulmx_diag -diag_const_mx; congr diag_mx.
by apply/rowP=> i; rewrite !mxE; case: ifP; rewrite ?mul1r // mulrNN mul1r.
Qed.

Lemma det_flip_last n : (0 < n)%N -> \det (flip_last F n) = -1.
Proof.
case: n => // n _; rewrite /flip_last det_diag (bigD1 ord_max) //= mxE eqxx.
rewrite big1 ?mulr1 // => i; rewrite mxE eqSS -val_eqE /=.
by move/negbTE->.
Qed.

Lemma oriented_orthogonal n (O : 'M[F]_n) :
  (0 < n)%N -> orthogonal O ->
  let O' := if \det O < 0 then O *m flip_last F n else O in
  orthogonal O' /\ \det O' = 1.
Proof.
move=> n_gt0 orthO /=; have /eqP := orthogonal_det orthO.
rewrite sqrf_eq1 => /orP[/eqP detO|/eqP detO]; rewrite detO.
  by rewrite ltr10.
rewrite oppr_lt0 ltr01 det_mulmx detO det_flip_last // mulrNN mul1r; split=> //.
rewrite /orthogonal trmx_mul mulmxA -(mulmxA O) flip_last_orthogonal mulmx1.
exact: orthO.
Qed.

(* P = (U D V^T)(U D V^T)^T and M = P O *)
Lemma conditioned_gram n (U V O : 'M[F]_n) (e : 'rV[F]_n) :
  orthogonal U -> orthogonal V -> orthogonal O ->
  let P := (U *m diag_mx e *m V^T) *m (U *m diag_mx e *m V^T)^T in
  (P *m O) *m (P *m O)^T = U *m diag_mx (\row_i e 0 i ^+ 4) *m U^T.
Proof.
move=> orthU orthV orthO /=.
have PE : (U *m diag_mx e *m V^T) *m (U *m diag_mx e *m V^T)^T
          = U *m diag_mx (\row_i e 0 i ^+ 2) *m U^T.
  rewrite !trmx_mul trmxK tr_diag_mx !mulmxA -(mulmxA _ V^T V).
  rewrite (orthogonal_tr orthV) mulmx1 -(mulmxA U) mulmx_diag.
  by congr (_ *m diag_mx _ *m _); apply/rowP=> i; rewrite !mxE expr2.
rewrite PE trmx_mul !mulmxA -(mulmxA _ O) orthO mulmx1.
rewrite !trmx_mul trmxK tr_diag_mx !mulmxA -(mulmxA _ U^T U).
rewrite (orthogonal_tr orthU) mulmx1 -(mulmxA U) mulmx_diag.
congr (_ *m diag_mx _ *m _); apply/rowP=> i; rewrite !mxE -exprD //.
Qed.

Lemma conditioned_det n (U V O : 'M[F]_n) (e : 'rV[F]_n) :
  orthogonal U -> orthogonal V -> \det O = 1 ->
  let P := (U *m diag_mx e *m V^T) *m (U *m diag_mx e *m V^T)^T in
  \det (P *m O) = (\prod_i e 0 i) ^+ 2.
Proof.
move=> /orthogonal_det detU /orthogonal_det detV detO /=.
rewrite det_mulmx detO mulr1 det_mulmx det_tr -expr2.
by rewrite !det_mulmx det_tr det_diag !exprMn detU detV mul1r mulr1.
Qed.

Section Call.
Variables log exp : F -> F.
Variable arange : F -> F -> F -> option (seq F).
Variable qr : forall n : nat, 'M[F]_n -> 'M[F]_n * 'M[F]_n.
Variable rng : Type.
Variable np_random_rand : forall n : nat, rng -> 'M[F]_n * rng.
Variable np_random_normal : forall n : nat, rng -> 'M[F]_n * rng.
Variable dim : nat.
Variable cond : F.
Variable g : rng.

Let start : F := - log cond / 4%:R.
Let step : F := log cond / (2%:R * (dim%:R - 1)).
Let A := (np_random_rand dim g).1.
Let g1 := (np_random_rand dim g).2.
Let B := (np_random_rand dim g1).1.
Let g2 := (np_random_rand dim g1).2.
Let seed := (np_random_normal dim g2).1.
Let g3 := (np_random_normal dim g2).2.
Let U := (qr (scaled A)).1.
Let V := (qr (scaled B)).1.
Let O := (qr seed).1.
Let e : 'rV[F]_dim := \row_i exp (start + i%:R * step).

Hypothesis dim_gt1 : (1 < dim)%N.
Variable l : seq F.
Hypothesis arange_some : exp_vec log arange dim cond = Some l.
Hypothesis arange_vals : take dim l = progression start step dim.

Lemma rand_mat_condE :
  rand_mat_cond log exp arange qr np_random_rand np_random_normal dim cond g =
  (Some ((U *m diag_mx e *m V^T) *m (U *m diag_mx e *m V^T)^T
         *m (if \det O < 0 then O *m flip_last F dim else O)), g3).
Proof.
rewrite /rand_mat_cond arange_some arange_vals (gtn_eqF dim_gt1).
rewrite /U /V /O /g3 /seed /g2 /B /g1 /A.
case: (np_random_rand dim g) => A' g1' /=.
case: (qr (scaled A')) => U' R1 /=.
case: (np_random_rand dim g1') => B' g2' /=.
case: (qr (scaled B')) => V' R2 /=.
rewrite /progression size_map size_iota eqxx.
case: (np_random_normal dim g2') => seed' g3' /=.
case: (qr seed') => O' R3 /=.
suff -> : \row_i exp (nth 0 [seq start + i0%:R * step | i0 <- iota 0 dim] i) = e by [].
apply/rowP=> i; rewrite !mxE (nth_map 0%N) ?size_iota //.
by rewrite nth_iota // add0n.
Qed.

Lemma exp_vec_nth i : (i < dim)%N -> nth 0 l i = start + i%:R * step.
Proof.
move=> lt_i; rewrite -(nth_take 0 lt_i) arange_vals /progression.
by rewrite (nth_map 0%N) ?size_iota // nth_iota // add0n.
Qed.

Lemma dim_unit : dim%:R - 1 != 0 :> F.
Proof.
by rewrite subr_eq0 -[1]/(1%:R) eqr_nat neq_ltn dim_gt1 orbT.
Qed.

Lemma exponents_opposite (i : 'I_dim) :
  (start + i%:R * step) + (start + (rev_ord i)%:R * step) = 0.
Proof.
rewrite addrACA -mulrDl -natrD /=.
have -> : (i + (dim - i.+1) = dim.-1)%N.
  by rewrite -[in RHS](subnKC (ltn_ord i)) addSn.
have -> : dim.-1%:R = dim%:R - 1 :> F.
  by rewrite -subn1 natrB // ltnW.
rewrite /start /step.
have -> : (dim%:R - 1) * (log cond / (2 * (dim%:R - 1))) = log cond / 2 :> F.
  by rewrite invfM mulrC -!mulrA mulVf ?dim_unit // mulr1.
have -> : - log cond / 4 = - (log cond / 2 / 2) :> F.
  by rewrite mulNr -[4]/((2 * 2)%:R) natrM invfM mulrA.
by rewrite -opprD -splitr addNr.
Qed.

Hypothesis qrU : is_qr (scaled A) (qr (scaled A)).
Hypothesis qrV : is_qr (scaled B) (qr (scaled B)).
Hypothesis qrO : is_qr seed (qr seed).

Let O' := if \det O < 0 then O *m flip_last F dim else O.
Let M := (U *m diag_mx e *m V^T) *m (U *m diag_mx e *m V^T)^T *m O'.

Lemma call_orthogonal :
  [/\ orthogonal U, orthogonal V, orthogonal O' & \det O' = 1].
Proof.
have orthU : orthogonal U by move: qrU; rewrite /U; case: (qr _) => ? ? [].
have orthV : orthogonal V by move: qrV; rewrite /V; case: (qr _) => ? ? [].
have orthO : orthogonal O by move: qrO; rewrite /O; case: (qr _) => ? ? [].
by have [] := oriented_orthogonal (ltnW dim_gt1) orthO.
Qed.

Lemma call_gram :
  M *m M^T = U *m diag_mx (\row_i (e 0 i ^+ 2) ^+ 2) *m U^T.
Proof.
have [orthU orthV orthO' _] := call_orthogonal.
rewrite /M conditioned_gram //; congr (_ *m diag_mx _ *m _).
by apply/rowP=> i; rewrite !mxE -exprM.
Qed.

Hypothesis exp_add : forall x y, exp (x + y) = exp x * exp y.
Hypothesis exp_gt0 : forall x, 0 < exp x.

Lemma exp_eq1 : exp 0 = 1.
Proof.
have := exp_add 0 0; rewrite addr0 => /esym /eqP.
by rewrite -{3}[exp 0]mulr1 -subr_eq0 -mulrBr mulf_eq0 gt_eqF //= subr_eq0 => /eqP.
Qed.

Lemma exponents_prod : \prod_i e 0 i = 1.
Proof.
have sqr1 : (\prod_i e 0 i) ^+ 2 = 1.
  rewrite expr2 {2}(reindex_inj rev_ord_inj) /= -big_split /= big1 // => i _.
  by rewrite !mxE -exp_add exponents_opposite exp_eq1.
have /eqP := sqr1; rewrite sqrf_eq1 => /orP[/eqP //|/eqP neg].
have : 0 < \prod_i e 0 i by apply: prodr_gt0 => i _; rewrite mxE.
by rewrite neg oppr_gt0 ltr10.
Qed.

Lemma call_det : \det M = 1.
Proof.
have [orthU orthV _ detO'] := call_orthogonal.
by rewrite /M conditioned_det // exponents_prod expr1n.
Qed.

Lemma exponents_sorted (exp_mono : forall x y, x <= y -> exp x <= exp y) :
  0 <= log cond -> forall i j : 'I_dim, (i <= j)%N -> e 0 i <= e 0 j.
Proof.
move=> log_ge0 i j le_ij; rewrite !mxE; apply: exp_mono.
rewrite lerD2l ler_wpM2r ?ler_nat // /step divr_ge0 // mulr_ge0 ?ler0n //.
by rewrite subr_ge0 -[1]/(1%:R) ler_nat ltnW.
Qed.

Hypothesis exp_log : exp (log cond) = cond.

Lemma exponents_ratio (first last : 'I_dim) :
  first = 0%N :> nat -> last = dim.-1 :> nat ->
  e 0 last ^+ 2 / e 0 first ^+ 2 = cond.
Proof.
move=> firstE lastE; rewrite -exprVn -exprMn expr2 !mxE firstE lastE mul0r addr0.
have -> x : exp (start + x) / exp start = exp x.
  by rewrite exp_add mulrC mulKf // lt0r_neq0.
rewrite -exp_add -mulr2n -exp_log; congr exp.
have -> : dim.-1%:R = dim%:R - 1 :> F by rewrite -subn1 natrB // ltnW.
rewrite /step.
have -> : (dim%:R - 1) * (log cond / (2 * (dim%:R - 1))) = log cond / 2 :> F.
  by rewrite invfM mulrC -!mulrA mulVf ?dim_unit // mulr1.
by rewrite mulr2n -splitr.
Qed.
End Call.
End RandomLemmas.

(* ===================================================================== *)
(*  Further properties of the code                                       *)
(* ===================================================================== *)

Section Further.

Variable F : realFieldType.
Variable svd : forall d k : nat, 'M[F]_(d, k) -> svd_result F d k.
Variable exp : F -> F.
Variable rng : Type.
Variable np_random_seed : nat -> rng.
Variable quadratic_assignment :
  forall m : nat, 'M[F]_m -> 'M[F]_m -> rng -> ('I_m -> 'I_m) * rng.
Variable linear_sum_assignment :
  forall m : nat, 'M[F]_m -> ('I_m -> 'I_m) * ('I_m -> 'I_m).

Local Notation f_opt := (f_opt exp np_random_seed quadratic_assignment).
Local Notation trials := (trials svd exp np_random_seed quadratic_assignment).
Local Notation aggregated :=
  (aggregated svd exp np_random_seed quadratic_assignment).
Local Notation correspondence :=
  (correspondence svd exp np_random_seed quadratic_assignment
     linear_sum_assignment).
Local Notation granni_point_clouds :=
  (granni_point_clouds svd exp np_random_seed quadratic_assignment
     linear_sum_assignment).

(** X1: centering commutes with every linear map applied to the points:
    the barycenter of L A is L applied to the barycenter of A, and
    barycentered(L A) = L barycentered(A). *)
Theorem centering_commutes_with_linear_maps (d e n : nat)
    (L : 'M[F]_(e, d)) (A : 'M[F]_(d, n)) :
  (0 < n)%N ->
  bar (L *m A) = bar A *m L^T /\
  barycentered (L *m A) = L *m barycentered A.
Proof. by move=> _; split; [exact: bar_linear | exact: barycentered_linear]. Qed.

(** X2: translating every point of a cloud by the same vector t moves the
    barycenter by t and leaves the centered cloud as it was. *)
Theorem centering_translation_invariant (d n : nat) (A : 'M[F]_(d, n))
    (t : 'cV[F]_d) :
  (0 < n)%N ->
  bar (A + t *m const_mx 1) = bar A + t^T /\
  barycentered (A + t *m const_mx 1) = barycentered A.
Proof.
by move=> n_gt0; split; [exact: bar_translate | exact: barycentered_translate].
Qed.

(** X3: listing the points of a cloud in another order s keeps the
    barycenter, and centering the reordered cloud A[:, s] gives the
    centered cloud in that order. *)
Theorem centering_commutes_with_relabelling (d n : nat) (s : 'I_n -> 'I_n)
    (A : 'M[F]_(d, n)) :
  (0 < n)%N -> injective s ->
  bar (colsub s A) = bar A /\
  barycentered (colsub s A) = colsub s (barycentered A).
Proof.
by move=> _ inj; split; [exact: bar_relabel | exact: barycentered_relabel].
Qed.

(** X4: a cloud of a single point is its own barycenter, and centering it
    leaves the zero array. *)
Theorem centering_single_point (d : nat) (A : 'M[F]_(d, 1)) :
  bar A = A^T /\ barycentered A = 0.
Proof.
have barA i : bar A 0 i = A i 0 by rewrite barE big_ord1 divr1.
split; first by apply/rowP=> i; rewrite barA mxE.
by apply/matrixP=> i j; rewrite barycenteredE barA ord1 subrr mxE.
Qed.

(** X5: on an array X of full rank d, ortho_proj_ker(X) is
    X^T (X X^T)^-1 X, whichever singular value decomposition
    np.linalg.svd returns. *)
Theorem ortho_proj_ker_closed_form (d k : nat) (X : 'M[F]_(d, k)) :
  is_svd X (svd X) -> \rank X = d ->
  X *m X^T \in unitmx /\
  ortho_proj_ker svd X = X^T *m invmx (X *m X^T) *m X.
Proof.
move=> svdX rkX; split; first by rewrite gram_unit rkX.
exact: ortho_proj_ker_gram.
Qed.

(** X6: ortho_proj_ker does not see an invertible linear map applied to
    the points: on a full-rank X, ortho_proj_ker(L X) = ortho_proj_ker(X)
    for every invertible L, orthogonal or not. *)
Theorem ortho_proj_ker_linear_invariance (d k : nat) (X : 'M[F]_(d, k))
    (L : 'M[F]_d) :
  is_svd X (svd X) -> is_svd (L *m X) (svd (L *m X)) ->
  \rank X = d -> L \in unitmx ->
  ortho_proj_ker svd (L *m X) = ortho_proj_ker svd X.
Proof. by move=> svdX svdLX rkX unitL; apply: ortho_proj_ker_linear. Qed.

(** X7: listing the points of a full-rank cloud in another order s
    reorders the rows and the columns of the projector in the same way:
    ortho_proj_ker(X[:, s])[a, b] = ortho_proj_ker(X)[s a, s b]. *)
Theorem ortho_proj_ker_relabelling (d k : nat) (X : 'M[F]_(d, k))
    (s : 'I_k -> 'I_k) :
  is_svd X (svd X) -> is_svd (colsub s X) (svd (colsub s X)) ->
  \rank X = d -> injective s ->
  forall a b,
    ortho_proj_ker svd (colsub s X) a b = ortho_proj_ker svd X (s a) (s b).
Proof.
move=> svdX svdXs rkX inj a b.
by rewrite (ortho_proj_ker_colsub svdX rkX svdXs inj) !mxE.
Qed.

(** X8: on a cloud with no more points than rows, ortho_proj_ker returns
    the identity matrix, whatever the points are. *)
Theorem ortho_proj_ker_few_points (d k : nat) (X : 'M[F]_(d, k)) :
  is_svd X (svd X) -> (k <= d)%N -> ortho_proj_ker svd X = 1%:M.
Proof. by move=> svdX le_kd; apply: ortho_proj_ker_few. Qed.

(** X9: on an array X of full rank d, the complement
    I - ortho_proj_ker(X) is the orthogonal projector onto the null space
    of X: it is symmetric and idempotent, of trace k - d, X sends its
    columns to 0 and it fixes every v with X v = 0. *)
Theorem kernel_projector_is_complement (d k : nat) (X : 'M[F]_(d, k)) :
  is_svd X (svd X) -> \rank X = d ->
  let Q := 1%:M - ortho_proj_ker svd X in
  [/\ X *m Q = 0, Q^T = Q, Q *m Q = Q, \tr Q = (k - d)%:R
    & forall v : 'cV[F]_k, X *m v = 0 -> Q *m v = v].
Proof.
move=> svdX rkX /=; have le_dk : (d <= k)%N by rewrite -rkX rank_leq_col.
have symP := proj_sym svd X; have idemP := proj_idem svdX.
split=> [||||v Xv0].
- rewrite mulmxBr mulmx1; apply/eqP; rewrite subr_eq0; apply/eqP.
  by apply: trmx_inj; rewrite trmx_mul symP proj_rows.
- by rewrite linearB /= trmx1 symP.
- by rewrite mulmxBl !mulmxBr !mulmx1 mul1mx idemP subrr subr0.
- by rewrite raddfB /= mxtrace1 (proj_trace svdX) (minn_idPl le_dk) natrB.
by rewrite mulmxBl mul1mx (proj_null svdX rkX Xv0) subr0.
Qed.

(** X10: the projector of a centered cloud of full rank sends the vector
    of ones to 0: each of the rows of Px built from the centered X adds up
    to 0. *)
Theorem centered_projector_rows_sum_to_zero (dx n : nat)
    (X : 'M[F]_(dx, n)) :
  (0 < n)%N -> is_svd (Xc X) (svd (Xc X)) -> \rank (Xc X) = dx ->
  ortho_proj_ker svd (Xc X) *m (const_mx 1 : 'cV[F]_n) = 0 /\
  forall a, \sum_b ortho_proj_ker svd (Xc X) a b = 0.
Proof.
move=> n_gt0 svdX rkX.
have ones0 := proj_null svdX rkX (barycentered_sums X n_gt0).
split=> // a; have /matrixP /(_ a ord0) := ones0; rewrite !mxE => sum0.
by rewrite -[RHS]sum0; apply: eq_bigr => b _; rewrite mxE mulr1.
Qed.

(** X11: for the operators Px and Py that granni_point_clouds builds and
    every permutation ind, the trace that f_opt computes on S = I[ind]
    lies between 0 and min(dx, num_x); on three-dimensional clouds it
    never exceeds dim = 3. *)
Theorem trial_trace_bounds (dx num_x dy num_y : nat)
    (le_xy : (num_x <= num_y)%N)
    (X : 'M[F]_(dx, num_x)) (Y : 'M[F]_(dy, num_y))
    (ind : 'I_num_y -> 'I_num_y) :
  is_svd (Xc X) (svd (Xc X)) -> is_svd (Yc Y) (svd (Yc Y)) ->
  injective ind ->
  let s := rowsub ind (I F num_y) in
  0 <= \tr (Px svd le_xy X *m s *m Py svd Y *m s^T) <= (minn dx num_x)%:R.
Proof. by move=> svdX svdY inj; apply: trace_bounds. Qed.

(** X12: zero padding is compatible with products and transposes and keeps
    the trace, so that the padded Px is again a symmetric idempotent of
    the same trace. *)
Theorem pad_preserves_projectors (num_x num_y : nat)
    (le_xy : (num_x <= num_y)%N) (P Q : 'M[F]_num_x) :
  [/\ pad le_xy P *m pad le_xy Q = pad le_xy (P *m Q),
      (pad le_xy P)^T = pad le_xy P^T
    & \tr (pad le_xy P) = \tr P].
Proof. by split; [exact: pad_mul | exact: pad_tr | exact: pad_trace]. Qed.

(** X13: when Y is the image of a full-rank X under an invertible map L1
    with its points listed in the order sigma, Y = (L1 X)[:, sigma], and
    the quadratic assignment of trial i returns the true correspondence,
    the trace of the trial is dim = 3 and its weight is 1. *)
Theorem true_correspondence_weight_one (n : nat) (le_nn : (n <= n)%N)
    (X Y : 'M[F]_(dim, n)) (L1 : 'M[F]_dim) (sigma : 'I_n -> 'I_n)
    (i : nat) (g : rng) :
  exp 0 = 1 ->
  is_svd (Xc X) (svd (Xc X)) -> is_svd (Yc Y) (svd (Yc Y)) ->
  \rank (Xc X) = dim -> L1 \in unitmx ->
  Y = colsub sigma (L1 *m X) ->
  let P1 := Px svd le_nn X in
  let P2 := Py svd Y in
  let ind := (quadratic_assignment P1 P2 (np_random_seed i)).1 in
  cancel ind sigma ->
  \tr (P1 *m rowsub ind (I F n) *m P2 *m (rowsub ind (I F n))^T) = dim%:R /\
  (f_opt P1 P2 i g).1.1.1 = 1.
Proof.
move=> exp0 svdX svdY rkX unitL YE P1 P2 ind indK.
have inj : injective sigma := can_inj (canF_sym indK).
have traceE := trace_relabelled le_nn YE inj svdX svdY unitL rkX indK.
split; first exact: traceE.
rewrite /Granni.f_opt -/P1 -/P2; move: traceE; rewrite /= -/P1 -/P2 /ind.
case: (quadratic_assignment _ _ _) => ind' g' /= ->.
by rewrite subrr expr0n mulr0.
Qed.

(** X14: psd_fit(X, Y) returns a matrix whenever X has full rank d,
    whatever Y is, and whenever X has fewer columns than rows it raises,
    at the product Ux @ np.diag(Sigma_x) of a (d, d) and a (k, k) array. *)
Theorem psd_fit_defined_on_full_rank (d k : nat) (X Y : 'M[F]_(d, k)) :
  is_svd X (svd X) ->
  (\rank X = d -> exists P, psd_fit svd X Y = Some P) /\
  ((k < d)%N -> psd_fit svd X Y = None).
Proof.
by move=> svdX; split; [exact: psd_fit_defined | exact: psd_fit_shape].
Qed.

(** X15: when both X and Y have full rank d, the matrix psd_fit(X, Y)
    returns is invertible. *)
Theorem psd_fit_invertible (d k : nat) (le_dk : (d <= k)%N)
    (X Y : 'M[F]_(d, k)) (P : 'M[F]_d) :
  let Lxy := (svd_factor svd le_dk X)^T *m svd_factor svd le_dk Y in
  is_svd X (svd X) -> is_svd Y (svd Y) -> is_svd Lxy (svd Lxy) ->
  \rank X = d -> \rank Y = d ->
  psd_fit svd X Y = Some P -> P \in unitmx.
Proof.
by move=> Lxy svdX svdY svdXY rkX rkY; apply: (psd_fit_unit svdX svdY svdXY).
Qed.

(** X16: the three assertions are checked in the order of the source, and
    a failing one stops the run before any step has started: a cloud X
    without three rows fails the first, a cloud Y without three rows the
    second, and more points in X than in Y the third. *)
Theorem assertions_in_order (dx num_x dy num_y : nat) (L : 'M[F]_dim)
    (X : 'M[F]_(dx, num_x)) (Y : 'M[F]_(dy, num_y))
    (init : nat -> rng) (sched : seq (Pool.action rng)) (n_iter : nat) :
  let r := granni_point_clouds L X Y init sched n_iter in
  [/\ dx <> 3 -> r = ([::], inl AssertDimX),
      dx = 3 -> dy <> 3 -> r = ([::], inl AssertDimY)
    & dx = 3 -> dy = 3 -> (num_y < num_x)%N ->
      r = ([::], inl AssertCardinality)].
Proof.
split=> [/eqP dx3|/eqP dx3 /eqP dy3|/eqP dx3 /eqP dy3 gt_xy].
- by rewrite granni_bad_dims dx3.
- by rewrite granni_bad_dims ?dy3 ?orbT // dx3.
- by rewrite granni_reject // dx3 dy3.
Qed.


(** X18: centering leaves a cloud of n >= 1 points with rank at most
    n - 1, so that for a cloud X of no more points than rows, three
    points or fewer in the pipeline, the matrix X X^T that the last line
    of granni_point_clouds hands to np.linalg.inv has determinant 0. *)
Theorem centered_gram_singular (dx num_x : nat) (X : 'M[F]_(dx, num_x)) :
  (0 < num_x)%N ->
  (\rank (Xc X) < num_x)%N /\
  ((num_x <= dx)%N ->
   Xc X *m (Xc X)^T \notin unitmx /\ \det (Xc X *m (Xc X)^T) = 0).
Proof.
move=> x_gt0; split=> [|le_xd]; first exact: rank_barycentered.
have singular : Xc X *m (Xc X)^T \notin unitmx.
  by apply: gram_few_points; rewrite x_gt0.
by split=> //; apply/eqP; move: singular; rewrite unitmxE unitfE negbK.
Qed.

(** X19: when Y is the image of X under a linear map L1 with its points
    listed in the order sigma, and the linear assignment returns the true
    correspondence, a run that returns recovers L1 exactly: L0 = L1. *)
Theorem exact_recovery (d e n : nat) (le_nn : (n <= n)%N) (L : 'M[F]_dim)
    (X : 'M[F]_(d, n)) (Y : 'M[F]_(e, n)) (L1 : 'M[F]_(e, d))
    (sigma : 'I_n -> 'I_n)
    (init : nat -> rng) (sched : seq (Pool.action rng)) (n_iter : nat)
    (L' : 'M[F]_dim) (L0 : 'M[F]_(e, d)) :
  (granni_point_clouds L X Y init sched n_iter).2 = inr (L', L0) ->
  Y = colsub sigma (L1 *m X) ->
  cancel (correspondence le_nn X Y init sched n_iter) sigma ->
  L0 = L1.
Proof.
move=> ret YE indK; have [unitG ->] := granni_map le_nn ret.
have inj : injective sigma := can_inj (canF_sym indK).
by rewrite (matched_relabelled le_nn YE inj indK) exact_fit.
Qed.

(** X20: the map L0 of a run that returns is a least-squares solution: no
    matrix L1 brings the centered X closer, in the Frobenius norm, to the
    matched columns of the centered Y. *)
Theorem recovered_map_least_squares (dx num_x dy num_y : nat)
    (le_xy : (num_x <= num_y)%N) (L : 'M[F]_dim)
    (X : 'M[F]_(dx, num_x)) (Y : 'M[F]_(dy, num_y))
    (init : nat -> rng) (sched : seq (Pool.action rng)) (n_iter : nat)
    (L' : 'M[F]_dim) (L0 : 'M[F]_(dy, dx)) :
  (granni_point_clouds L X Y init sched n_iter).2 = inr (L', L0) ->
  let Y_matched :=
    matched le_xy Y (correspondence le_xy X Y init sched n_iter) in
  (Y_matched - L0 *m Xc X) *m (Xc X)^T = 0 /\
  forall L1 : 'M[F]_(dy, dx),
    \tr ((Y_matched - L0 *m Xc X) *m (Y_matched - L0 *m Xc X)^T) <=
    \tr ((Y_matched - L1 *m Xc X) *m (Y_matched - L1 *m Xc X)^T).
Proof.
move=> ret /=; have [unitG ->] := granni_map le_xy ret.
by split=> [|L1]; [exact: normal_equations | exact: least_squares].
Qed.

(** X21: when np.exp has no negative value and is at most 1 on the
    arguments x <= 0, every trial returns a weight in [0, 1]. *)
Theorem f_opt_weight_range (m : nat) (Px Py : 'M[F]_m) (i : nat) (g : rng) :
  (forall x, 0 <= exp x) -> (forall x, x <= 0 -> exp x <= 1) ->
  0 <= (f_opt Px Py i g).1.1.1 <= 1.
Proof. by move=> exp_ge0 exp_le1; apply: weight_range. Qed.

(** X22: the aggregated matrix has no negative entry, and each of its rows
    adds up to the sum of the weights of the n_iter trials. *)
Theorem aggregated_rows (dx num_x dy num_y : nat)
    (le_xy : (num_x <= num_y)%N)
    (X : 'M[F]_(dx, num_x)) (Y : 'M[F]_(dy, num_y))
    (workers : nat) (init : nat -> rng) (sched : seq (Pool.action rng))
    (n_iter : nat) :
  Pool.schedule_of workers n_iter sched ->
  (forall x, 0 <= exp x) ->
  let mat := aggregated le_xy X Y init sched n_iter in
  (forall a b, 0 <= mat a b) /\
  (forall a, \sum_b mat a b
             = \sum_(v <- trials le_xy X Y init sched n_iter) v.1.1).
Proof.
move=> ok exp_ge0; split=> [a b|a]; first exact: aggregated_ge0 ok exp_ge0 a b.
exact: aggregated_row_sum ok a.
Qed.

(** X23: the 4 x 4 array that granni_point_clouds and granni_test build
    from a 3 x 3 array L is the block matrix [[L, 0], [0, 1]]: applied to
    points in homogeneous coordinates it maps every point v to L v,
    without translation. *)
Theorem homogeneous_acts_linearly (n : nat) (L : 'M[F]_3)
    (V : 'M[F]_(3, n)) :
  homogeneous L = block_mx L 0 0 1%:M /\
  homogeneous L *m col_mx V (const_mx 1) = col_mx (L *m V) (const_mx 1).
Proof. by split; [exact: homogeneousE | exact: homogeneous_points]. Qed.

(** X24: building the 4 x 4 array is compatible with composition: it
    sends a product to the product, the identity to the identity, and
    keeps the determinant. *)
Theorem homogeneous_composition (A B : 'M[F]_3) :
  [/\ homogeneous (A *m B) = homogeneous A *m homogeneous B,
      homogeneous (1%:M : 'M[F]_3) = 1%:M
    & \det (homogeneous A) = \det A].
Proof.
by split; [exact: homogeneousM | exact: homogeneous1 | exact: det_homogeneous].
Qed.

(** X25: on an invertible L0, the transformation granni_test applies to
    the target mesh undoes the recovered map and applies the original one:
    composed with the array built from L0 it gives the array built from L,
    and when the recovery is exact, L0 = L, it is the identity. *)
Theorem preimage_transformation_spec (L L0 : 'M[F]_3) :
  L0 \in unitmx ->
  exists2 T, preimage_transformation L L0 = Some T
           & homogeneous L0 *m T = homogeneous L /\ (L0 = L -> T = 1%:M).
Proof.
move=> unitL0; rewrite preimage_transformationE //; eexists; first by [].
split=> [|L0E]; first by rewrite -homogeneousM mulKVmx.
by rewrite -L0E mulVmx // homogeneous1.
Qed.

(** X26: a run that returns has started, in this order, the centering, the
    projection, the padding, every trial of range(n_iter) exactly once,
    the aggregation, the assignment and the estimation, and it returns the
    matrix L it was given together with L0. *)
Theorem returning_run_log (dx num_x dy num_y : nat) (L : 'M[F]_dim)
    (X : 'M[F]_(dx, num_x)) (Y : 'M[F]_(dy, num_y))
    (workers : nat) (init : nat -> rng) (sched : seq (Pool.action rng))
    (n_iter : nat) (L' : 'M[F]_dim) (L0 : 'M[F]_(dy, dx)) :
  Pool.schedule_of workers n_iter sched ->
  (granni_point_clouds L X Y init sched n_iter).2 = inr (L', L0) ->
  [/\ (granni_point_clouds L X Y init sched n_iter).1 =
      [:: Centering; Projection; Padding] ++
      [seq Trial t | t <- Pool.tasks sched] ++
      [:: Aggregation; Assignment; Estimation],
      perm_eq (Pool.tasks sched) (iota 0 n_iter)
    & L' = L].
Proof.
move=> ok ret; split; first exact: granni_log ret.
  by case/andP: ok.
have [dx3 dy3 le_xy] := granni_returns ret.
move: ret; rewrite (granni_accept _ _ _ _ _ _ _ _ _ _ _ le_xy) //.
rewrite granni_coreE; case: ifP => // _; case: ifP => // _.
by case: ifP => // _ [].
Qed.

End Further.

Section FurtherRandom.

Variable F : realFieldType.
Variables log exp : F -> F.
Variable arange : F -> F -> F -> option (seq F).
Variable qr : forall n : nat, 'M[F]_n -> 'M[F]_n * 'M[F]_n.
Variable rng : Type.
Variable np_random_rand : forall n : nat, rng -> 'M[F]_n * rng.
Variable np_random_normal : forall n : nat, rng -> 'M[F]_n * rng.

Local Notation rand_mat_cond :=
  (rand_mat_cond log exp arange qr np_random_rand np_random_normal).

(** X27: for dim >= 2, when np.arange returns at least dim values and the
    three factorisations are QR factorisations, rand_mat_cond returns a
    matrix M with M M^T = U diag(s_i ^ 2) U^T, where U is the orthogonal
    factor of the first draw and s_i = exp(e_i) ^ 2 for the i-th value
    e_i of np.arange: the s_i are the singular values of M. *)
Theorem rand_mat_cond_singular_values (dim : nat) (cond : F) (g : rng)
    (l : seq F) :
  let start := - log cond / 4%:R in
  let step := log cond / (2%:R * (dim%:R - 1)) in
  let draw1 := np_random_rand dim g in
  let draw2 := np_random_rand dim draw1.2 in
  let draw3 := np_random_normal dim draw2.2 in
  (1 < dim)%N ->
  exp_vec log arange dim cond = Some l ->
  take dim l = progression start step dim ->
  is_qr (scaled draw1.1) (qr (scaled draw1.1)) ->
  is_qr (scaled draw2.1) (qr (scaled draw2.1)) ->
  is_qr draw3.1 (qr draw3.1) ->
  exists2 M, rand_mat_cond dim cond g = (Some M, draw3.2)
    & let U := (qr (scaled draw1.1)).1 in
      let s : 'rV[F]_dim := \row_i exp (start + i%:R * step) ^+ 2 in
      orthogonal U /\
      M *m M^T = U *m diag_mx (\row_i s 0 i ^+ 2) *m U^T.
Proof.
move=> start step draw1 draw2 draw3 dim_gt1 arange_some arange_vals.
move=> qrU qrV qrO.
rewrite (rand_mat_condE exp qr np_random_rand np_random_normal g dim_gt1
           arange_some arange_vals).
eexists; first by [].
have [orthU _ _ _] := call_orthogonal dim_gt1 qrU qrV qrO.
split=> //; rewrite (call_gram log exp cond dim_gt1 qrU qrV qrO).
by congr (_ *m diag_mx _ *m _); apply/rowP=> i; rewrite !mxE.
Qed.

(** X28: under the same conditions, when np.exp is positive and turns
    sums into products, the matrix rand_mat_cond returns has determinant
    exactly 1: it is invertible and keeps orientation and volume. *)
Theorem rand_mat_cond_determinant (dim : nat) (cond : F) (g : rng)
    (l : seq F) :
  let start := - log cond / 4%:R in
  let step := log cond / (2%:R * (dim%:R - 1)) in
  let draw1 := np_random_rand dim g in
  let draw2 := np_random_rand dim draw1.2 in
  let draw3 := np_random_normal dim draw2.2 in
  (1 < dim)%N ->
  exp_vec log arange dim cond = Some l ->
  take dim l = progression start step dim ->
  is_qr (scaled draw1.1) (qr (scaled draw1.1)) ->
  is_qr (scaled draw2.1) (qr (scaled draw2.1)) ->
  is_qr draw3.1 (qr draw3.1) ->
  (forall x y, exp (x + y) = exp x * exp y) -> (forall x, 0 < exp x) ->
  exists2 M, rand_mat_cond dim cond g = (Some M, draw3.2)
           & \det M = 1 /\ M \in unitmx.
Proof.
move=> start step draw1 draw2 draw3 dim_gt1 arange_some arange_vals.
move=> qrU qrV qrO exp_add exp_gt0.
rewrite (rand_mat_condE exp qr np_random_rand np_random_normal g dim_gt1
           arange_some arange_vals).
eexists; first by [].
have detM := call_det log cond dim_gt1 qrU qrV qrO exp_add exp_gt0.
by rewrite unitmxE detM unitr1.
Qed.

(** X29: for cond >= 1, under the same conditions, the matrix M that
    rand_mat_cond returns has condition number cond: M M^T =
    U diag(s_i ^ 2) U^T with U orthogonal, where the singular values
    s_i = exp(e_i) ^ 2 increase with i and the largest is cond times the
    smallest. *)
Theorem rand_mat_cond_condition_number (dim : nat) (cond : F) (g : rng)
    (l : seq F) :
  let start := - log cond / 4%:R in
  let step := log cond / (2%:R * (dim%:R - 1)) in
  let draw1 := np_random_rand dim g in
  let draw2 := np_random_rand dim draw1.2 in
  let draw3 := np_random_normal dim draw2.2 in
  (1 < dim)%N ->
  exp_vec log arange dim cond = Some l ->
  take dim l = progression start step dim ->
  is_qr (scaled draw1.1) (qr (scaled draw1.1)) ->
  is_qr (scaled draw2.1) (qr (scaled draw2.1)) ->
  is_qr draw3.1 (qr draw3.1) ->
  (forall x y, exp (x + y) = exp x * exp y) -> (forall x, 0 < exp x) ->
  (forall x y, x <= y -> exp x <= exp y) ->
  exp (log cond) = cond -> 0 <= log cond ->
  exists2 M, rand_mat_cond dim cond g = (Some M, draw3.2)
    & let U := (qr (scaled draw1.1)).1 in
      let s (i : nat) := exp (nth 0 l i) ^+ 2 in
      [/\ orthogonal U,
          M *m M^T = U *m diag_mx (\row_(i < dim) s i ^+ 2) *m U^T,
          forall i j, (i <= j < dim)%N -> s i <= s j
        & s dim.-1 / s 0%N = cond].
Proof.
move=> start step draw1 draw2 draw3 dim_gt1 arange_some arange_vals.
move=> qrU qrV qrO exp_add exp_gt0 exp_mono exp_log log_ge0.
rewrite (rand_mat_condE exp qr np_random_rand np_random_normal g dim_gt1
           arange_some arange_vals).
eexists; first by []; move=> U s; have dim_gt0 := ltnW dim_gt1.
have sE (i : 'I_dim) :
    s i = (\row_i exp (start + i%:R * step)) 0 i ^+ 2 :> F.
  by rewrite /s mxE (exp_vec_nth arange_vals).
have [orthU _ _ _] := call_orthogonal dim_gt1 qrU qrV qrO.
split=> // [|i j /andP[le_ij lt_j]|].
- rewrite (call_gram log exp cond dim_gt1 qrU qrV qrO).
  by congr (_ *m diag_mx _ *m _); apply/rowP=> i; rewrite !mxE sE mxE.
- have lt_i := leq_ltn_trans le_ij lt_j.
  rewrite (sE (Ordinal lt_i)) (sE (Ordinal lt_j)) ler_pXn2r ?nnegrE //.
  + by rewrite mxE ltW.
  + by rewrite mxE ltW.
  + exact: (exponents_sorted dim_gt1 exp_mono log_ge0).
have lt_last : (dim.-1 < dim)%N by rewrite prednK.
rewrite (sE (Ordinal lt_last)) (sE (Ordinal dim_gt0)).
exact: (exponents_ratio dim_gt1 exp_add exp_gt0 exp_log).
Qed.

End FurtherRandom.

(* ===================================================================== *)
(*  The further concrete inputs                                          *)
(* ===================================================================== *)

Section ScanLemmas.

Import Example Scan.
Variable F : realFieldType.

Local Notation X := (tetrahedron F).
Local Notation S := (rowsub (@rev_ord (3 + 1)) (1%:M : 'M[F]_(3 + 1))).

Lemma sigma_mx_scale d k (c : F) (Sg : 'rV[F]_(minn d k)) :
  sigma_mx (c *: Sg) = c *: sigma_mx Sg.
Proof. by rewrite /sigma_mx linearZ /= -scalemxAr -scalemxAl. Qed.

(* Scaling by c >= 0 and relabelling by an orthogonal S turns a singular
   value decomposition (U, Sg, Vh) into (U, c Sg, Vh S). *)
Lemma is_svd_relabel d k (A : 'M[F]_(d, k)) U Sg Vh (c : F) (T : 'M[F]_k) :
  is_svd A (U, Sg, Vh) -> 0 <= c -> orthogonal T ->
  is_svd (c *: A *m T) (U, c *: Sg, Vh *m T).
Proof.
move=> [orthU orthV [Sg_ge0 Sg_desc] AE] c_ge0 orthT; split=> //.
- by rewrite /orthogonal trmx_mul mulmxA -(mulmxA Vh) orthT mulmx1.
- split=> [i|i j le_ij]; rewrite !mxE ?mulr_ge0 //.
  by rewrite ler_wpM2l // Sg_desc.
by rewrite {1}AE sigma_mx_scale -!scalemxAr -!scalemxAl !mulmxA.
Qed.

Lemma relabelledE : relabelled F = 1 *: X *m S^T.
Proof. by rewrite scale1r /relabelled colsub_mul. Qed.

Lemma scanE : scan F = 2%:R *: X *m S^T.
Proof. by rewrite /scan colsub_mul mul_scalar_mx. Qed.

Lemma relabelled_rows :
  2%:R^-1 *: col_mx (relabelled F) (const_mx 1 : 'rV[F]_(3 + 1))
  = (2%:R^-1 *: col_mx X (const_mx 1 : 'rV[F]_(3 + 1))) *m S^T.
Proof.
by rewrite -scalemxAl mul_col_mx const_selection_tr /relabelled colsub_mul.
Qed.

Lemma orthogonal_selection_tr : orthogonal S^T.
Proof.
rewrite /orthogonal trmxK; apply: orthogonal_tr.
exact: (selection_orthogonal F rev_ord_inj).
Qed.

Lemma relabelled_svdP : is_svd (relabelled F) (relabelled_svd F).
Proof.
have := is_svd_relabel (tetrahedron_svdP F) ler01 orthogonal_selection_tr.
by rewrite /relabelled_svd relabelled_rows relabelledE !scale1r.
Qed.

Lemma scan_svdP : is_svd (scan F) (scan_svd F).
Proof.
have two_ge0 : 0 <= 2%:R :> F by rewrite ler0n.
have := is_svd_relabel (tetrahedron_svdP F) two_ge0 orthogonal_selection_tr.
rewrite /scan_svd relabelled_rows scanE.
suff -> : 2%:R *: const_mx 2%:R = const_mx 4%:R :> 'rV[F]_(minn 3 (3 + 1)) by [].
by apply/rowP=> i; rewrite !mxE -natrM.
Qed.

Lemma svd1_tetrahedron : is_svd X (svd1 X).
Proof. by rewrite /svd1 /= eqxx; exact: tetrahedron_svdP. Qed.

Lemma svd1_relabelled : is_svd (relabelled F) (svd1 (relabelled F)).
Proof.
rewrite /svd1 /=; case: eqP => [->|_]; first exact: tetrahedron_svdP.
by rewrite eqxx; exact: relabelled_svdP.
Qed.

Lemma svd1_scan : is_svd (scan F) (svd1 (scan F)).
Proof.
rewrite /svd1 /=; case: eqP => [->|_]; first exact: tetrahedron_svdP.
case: eqP => [->|_]; first exact: relabelled_svdP.
exact: scan_svdP.
Qed.

Lemma scan_centered : barycentered (scan F) = scan F.
Proof.
rewrite /scan barycentered_relabel ?barycentered_linear ?tetrahedron_centered //.
exact: rev_ord_inj.
Qed.

Lemma tetrahedron_rank : \rank X = 3.
Proof. by apply/eqP; rewrite -gram_unit tetrahedron_unit. Qed.

Lemma two_unit : (2%:R%:M : 'M[F]_3) \in unitmx.
Proof. by rewrite unitmxE det_scalar unitfE expf_neq0 // pnatr_eq0. Qed.

Lemma stretch_X23 : stretch F *m X23 F = Y23 F.
Proof.
rewrite /stretch /X23 /Y23 /sigma_mx !pid_mx_1 !mul1mx mulmxA mulmx_diag.
by [].
Qed.

Lemma Y23_rank : \rank (Y23 F) = 2.
Proof. by rewrite -stretch_X23 rank_mul_unit ?X23_rank // /stretch stairs_unit. Qed.

End ScanLemmas.

Section DrawsLemmas.

Import Example Draws.

Lemma np_exp_add (x y : R) : exp (x + y) = exp x * exp y.
Proof. exact: Exp_prop.exp_plus. Qed.

Lemma np_exp_gt0 (x : R) : 0 < exp x.
Proof. by apply/RealsStructure.RltbP; exact: Exp_prop.exp_pos. Qed.

Lemma np_exp_ge0 (x : R) : 0 <= exp x.
Proof. exact/ltW/np_exp_gt0. Qed.

Lemma np_exp_mono (x y : R) : x <= y -> exp x <= exp y.
Proof.
rewrite le_eqVlt => /orP[/eqP->//|/RealsStructure.RltbP lt_xy].
by apply/ltW/RealsStructure.RltbP; exact: Rpower.exp_increasing.
Qed.

Lemma np_exp_le1 (x : R) : x <= 0 -> exp x <= 1.
Proof. by move=> /np_exp_mono; rewrite np_exp_0. Qed.

Lemma five_gt0 : 0 < 5%:R :> R.
Proof. by rewrite ltr0n. Qed.

Lemma np_exp_log5 : exp (log 5%:R) = 5%:R.
Proof. by apply: Rpower.exp_ln; apply/RealsStructure.RltbP; exact: five_gt0. Qed.

Lemma np_log5_ge0 : 0 <= log 5%:R.
Proof.
have : exp 0 < exp (log 5%:R) by rewrite np_exp_log5 np_exp_0 ltr1n.
move/RealsStructure.RltbP => lt_exp; apply: ltW; apply/RealsStructure.RltbP.
exact: Rpower.exp_lt_inv lt_exp.
Qed.

Lemma N_sqr : N *m N^T = 841%:R%:M.
Proof.
apply/matrixP=> i j; rewrite !mxE big_ord_recl big_ord1 !mxE /=.
case: i => [[|[|i]] lt_i] //; case: j => [[|[|j]] lt_j] //=.
- by rewrite !mulrNN -!natrM -natrD mulr1n.
- by rewrite mulrNN mulNr -!natrM mulr0n; exact: subrr.
- by rewrite mulrNN mulrN -!natrM mulr0n; exact: subrr.
- by rewrite !mulrNN -!natrM -natrD mulr1n.
Qed.

Lemma Q_orthogonal : orthogonal Q.
Proof.
rewrite /orthogonal /Q linearZ /= -scalemxAl -scalemxAr N_sqr scalerA.
by rewrite scale_scalar_mx -invfM -natrM mulVf ?pnatr_eq0.
Qed.

Lemma scaled_uniform : scaled uniform = N *m upper.
Proof.
rewrite /scaled /uniform addrC addKr scalerA divff ?scale1r //.
by rewrite pnatr_eq0.
Qed.

Lemma upper_triangular_upper (c : R) : upper_triangular (c *: upper).
Proof.
move=> i j; rewrite !mxE; case: i => [[|[|i]] lt_i] //=.
by case: j => [[|[|j]] lt_j] //=; rewrite mulr0.
Qed.

Lemma qr_factors (A : 'M[R]_2) : A = Q *m (Q^T *m A).
Proof. by rewrite mulmxA Q_orthogonal mul1mx. Qed.

Lemma qr_rand (g : rng) :
  let A := (np_random_rand 2 g).1 in is_qr (scaled A) (qr (scaled A)).
Proof.
split; [exact: Q_orthogonal | | exact: qr_factors].
rewrite [scaled _]scaled_uniform mulmxA.
have -> : Q^T *m N = 29%:R%:M.
  have -> : N = 29%:R *: Q by rewrite /Q scalerA divff ?scale1r ?pnatr_eq0.
  by rewrite -scalemxAr (orthogonal_tr Q_orthogonal) scalemx1.
by rewrite mul_scalar_mx; exact: upper_triangular_upper.
Qed.

Lemma qr_normal (g : rng) :
  let A := (np_random_normal 2 g).1 in is_qr A (qr A).
Proof.
split; [exact: Q_orthogonal | | exact: qr_factors].
rewrite [Q^T *m _](orthogonal_tr Q_orthogonal) => i j lt_ji.
by rewrite !mxE -val_eqE /= gtn_eqF.
Qed.

End DrawsLemmas.

(* ===================================================================== *)
(*  The further properties on concrete inputs                            *)
(* ===================================================================== *)

Section FurtherWitnesses.

Import Example.

Local Notation tetra := (tetrahedron R).
Local Notation rev := (@rev_ord (3 + 1)).

Lemma tetrahedron_svdX : is_svd (Xc tetra) (svd (Xc tetra)).
Proof. by rewrite /Xc tetrahedron_centered; exact: tetrahedron_svdP. Qed.

Lemma tetrahedron_svd1 : is_svd (Xc tetra) (Scan.svd (Xc tetra)).
Proof. by rewrite /Xc tetrahedron_centered; exact: svd1_tetrahedron. Qed.

Lemma scan_svd1 : is_svd (Yc (Scan.scan R)) (Scan.svd (Yc (Scan.scan R))).
Proof. by rewrite /Yc scan_centered; exact: svd1_scan. Qed.

Lemma tetrahedron_full_rank : \rank (Xc tetra) = 3.
Proof. by rewrite /Xc tetrahedron_centered tetrahedron_rank. Qed.

Lemma centering_commutes_with_linear_maps_witness :
  bar (2%:R%:M *m tetra) = bar tetra *m (2%:R%:M)^T /\
  barycentered (2%:R%:M *m tetra) = 2%:R%:M *m barycentered tetra.
Proof.
exact: (@centering_commutes_with_linear_maps R 3 3 (3 + 1) 2%:R%:M tetra isT).
Defined.

Lemma centering_translation_invariant_witness :
  bar (tetra + ones R *m const_mx 1) = bar tetra + (ones R)^T /\
  barycentered (tetra + ones R *m const_mx 1) = barycentered tetra.
Proof.
exact: (@centering_translation_invariant R 3 (3 + 1) tetra (ones R) isT).
Defined.

Lemma centering_commutes_with_relabelling_witness :
  bar (colsub rev tetra) = bar tetra /\
  barycentered (colsub rev tetra) = colsub rev (barycentered tetra).
Proof.
exact: (@centering_commutes_with_relabelling R 3 (3 + 1) rev tetra isT
          rev_ord_inj).
Defined.

Lemma ortho_proj_ker_closed_form_witness :
  X23 R *m (X23 R)^T \in unitmx /\
  ortho_proj_ker svd (X23 R)
  = (X23 R)^T *m invmx (X23 R *m (X23 R)^T) *m X23 R.
Proof.
exact: (@ortho_proj_ker_closed_form R svd 2 3 (X23 R) (X23_svd R)
          (X23_rank R)).
Defined.

Lemma stretch_svd :
  is_svd (Scan.stretch R *m X23 R) (svd (Scan.stretch R *m X23 R)).
Proof. by rewrite stretch_X23; exact: Y23_svd. Qed.

(* [[2, 0], [0, 1]] maps [[2, 0, 0], [0, 1, 0]] to [[4, 0, 0], [0, 1, 0]]. *)
Lemma ortho_proj_ker_linear_invariance_witness :
  ortho_proj_ker svd (Scan.stretch R *m X23 R) = ortho_proj_ker svd (X23 R).
Proof.
apply: (@ortho_proj_ker_linear_invariance R svd 2 3 (X23 R) (Scan.stretch R)).
- exact: X23_svd.
- exact: stretch_svd.
- exact: X23_rank.
- exact: stairs_unit.
Defined.

(* The entry of the first and the last point. *)
Lemma ortho_proj_ker_relabelling_witness :
  ortho_proj_ker Scan.svd (colsub rev tetra) ord0 ord_max
  = ortho_proj_ker Scan.svd tetra (rev ord0) (rev ord_max).
Proof.
apply: (@ortho_proj_ker_relabelling R Scan.svd 3 (3 + 1) tetra rev).
- exact: svd1_tetrahedron.
- exact: svd1_relabelled.
- exact: tetrahedron_rank.
- exact: rev_ord_inj.
Defined.

Lemma kernel_projector_is_complement_witness :
  let Q := 1%:M - ortho_proj_ker svd (X23 R) in
  [/\ X23 R *m Q = 0, Q^T = Q, Q *m Q = Q, \tr Q = (3 - 2)%:R
    & forall v : 'cV[R]_3, X23 R *m v = 0 -> Q *m v = v].
Proof.
exact: (@kernel_projector_is_complement R svd 2 3 (X23 R) (X23_svd R)
          (X23_rank R)).
Defined.

Lemma centered_projector_rows_sum_to_zero_witness :
  ortho_proj_ker svd (Xc tetra) *m (const_mx 1 : 'cV[R]_(3 + 1)) = 0 /\
  forall a, \sum_b ortho_proj_ker svd (Xc tetra) a b = 0.
Proof.
exact: (@centered_projector_rows_sum_to_zero R svd 3 (3 + 1) tetra isT
          tetrahedron_svdX tetrahedron_full_rank).
Defined.

(* Two points in three dimensions. *)
Lemma ortho_proj_ker_few_points_witness :
  ortho_proj_ker svd (Xc (pair R)) = 1%:M.
Proof.
exact: (@ortho_proj_ker_few_points R svd 3 2 (Xc (pair R)) (pair_svdP R) isT).
Defined.

Lemma trial_trace_bounds_witness :
  let s := rowsub rev (I R (3 + 1)) in
  0 <= \tr (Px svd le44 tetra *m s *m Py svd tetra *m s^T)
    <= (minn 3 (3 + 1))%:R.
Proof.
apply: (@trial_trace_bounds R svd 3 (3 + 1) 3 (3 + 1) le44 tetra tetra rev).
- exact: tetrahedron_svdX.
- exact: tetrahedron_svdX.
- exact: rev_ord_inj.
Defined.

Lemma pad_preserves_projectors_witness :
  let P : 'M[R]_1 := 1%:M in
  let le12 : (1 <= 2)%N := isT in
  [/\ pad le12 P *m pad le12 P = pad le12 (P *m P),
      (pad le12 P)^T = pad le12 P^T
    & \tr (pad le12 P) = \tr P].
Proof. by move=> P le12; exact: (@pad_preserves_projectors R 1 2 le12 P P). Defined.

(* The scan is the tetrahedron scaled by 2 in reverse order, and the
   quadratic assignment returns the reverse order. *)
Lemma true_correspondence_weight_one_witness :
  (f_opt exp np_random_seed (@Scan.quadratic_assignment R)
     (Px Scan.svd le44 tetra) (Py Scan.svd (Scan.scan R)) 0 (idle 0%N)).1.1.1
  = 1.
Proof.
have [] // := @true_correspondence_weight_one R Scan.svd exp rng np_random_seed
  (@Scan.quadratic_assignment R) (3 + 1) le44 tetra (Scan.scan R) 2%:R%:M rev
  0%N (idle 0%N) np_exp_0 tetrahedron_svd1 scan_svd1 tetrahedron_full_rank
  (two_unit R) (erefl _).
exact: rev_ordK.
Defined.

(* [[2, 0, 0], [0, 1, 0]] has full rank; the centered pair has three rows
   and two columns. *)
Lemma psd_fit_defined_on_full_rank_witness :
  (exists P, psd_fit svd (X23 R) (Y23 R) = Some P) /\
  psd_fit svd (Xc (pair R)) (Xc (pair R)) = None.
Proof.
split.
  have [defined _] := @psd_fit_defined_on_full_rank R svd 2 3 (X23 R) (Y23 R)
    (X23_svd R).
  exact: defined (X23_rank R).
have [_ shape] := @psd_fit_defined_on_full_rank R svd 3 2 (Xc (pair R))
  (Xc (pair R)) (pair_svdP R).
exact: shape.
Defined.

Lemma psd_fit_invertible_witness :
  exists2 P, psd_fit svd (X23 R) (Y23 R) = Some P & P \in unitmx.
Proof.
have [P PE] := psd_fit_defined (Y23 R) (X23_svd R) (X23_rank R).
exists P => //.
apply: (@psd_fit_invertible R svd 2 3 isT (X23 R) (Y23 R) P) PE.
- exact: X23_svd.
- exact: Y23_svd.
- exact: XY23_svd.
- exact: X23_rank.
- exact: Y23_rank.
Defined.


(* Two points in three dimensions. *)
Lemma centered_gram_singular_witness :
  (\rank (Xc (pair R)) < 2)%N /\
  (Xc (pair R) *m (Xc (pair R))^T \notin unitmx /\
   \det (Xc (pair R) *m (Xc (pair R))^T) = 0).
Proof.
have [rk singular] := @centered_gram_singular R 3 2 (pair R) isT.
by split=> //; apply: singular.
Defined.

(* The run on the tetrahedron and its scan returns, and recovers the
   scaling by 2. *)
Lemma scan_run :
  exists LL0,
    (Scan.granni 1%:M tetra (Scan.scan R) idle in_order 2).2 = inr LL0.
Proof.
exact: (granni_returns_full_rank Scan.svd exp np_random_seed
          (@Scan.quadratic_assignment R) (@Scan.linear_sum_assignment R)
          (X := tetra) 1%:M (Scan.scan R) idle schedule_in_order
          (erefl 3%N) (erefl 3%N) isT isT tetrahedron_full_rank).
Qed.

Lemma exact_recovery_witness :
  exists L',
    (Scan.granni 1%:M tetra (Scan.scan R) idle in_order 2).2
    = inr (L', 2%:R%:M).
Proof.
have [[L' L0] ret] := scan_run; exists L'; rewrite ret.
have -> // := @exact_recovery R Scan.svd exp rng np_random_seed
  (@Scan.quadratic_assignment R) (@Scan.linear_sum_assignment R) 3 3 (3 + 1)
  le44 1%:M tetra (Scan.scan R) 2%:R%:M rev idle in_order 2 L' L0 ret
  (erefl _).
exact: rev_ordK.
Defined.

Lemma recovered_map_least_squares_witness :
  let Y_matched :=
    matched le44 tetra
      (correspondence svd exp np_random_seed (@quadratic_assignment R)
         (@linear_sum_assignment R) le44 tetra tetra idle in_order 2) in
  (Y_matched - 1%:M *m Xc tetra) *m (Xc tetra)^T = 0 /\
  forall L1 : 'M[R]_3,
    \tr ((Y_matched - 1%:M *m Xc tetra) *m (Y_matched - 1%:M *m Xc tetra)^T) <=
    \tr ((Y_matched - L1 *m Xc tetra) *m (Y_matched - L1 *m Xc tetra)^T).
Proof.
exact: (@recovered_map_least_squares R svd exp rng np_random_seed
          (@quadratic_assignment R) (@linear_sum_assignment R) 3 (3 + 1) 3
          (3 + 1) le44 1%:M tetra tetra idle in_order 2 1%:M 1%:M
          (tetrahedron_run idle schedule_in_order)).
Defined.

Lemma f_opt_weight_range_witness :
  0 <= (f_opt exp np_random_seed (@quadratic_assignment R)
          (Px svd le44 tetra) (Py svd tetra) 0 (idle 0%N)).1.1.1 <= 1.
Proof.
exact: (@f_opt_weight_range R exp rng np_random_seed (@quadratic_assignment R)
          (3 + 1) (Px svd le44 tetra) (Py svd tetra) 0%N (idle 0%N)
          np_exp_ge0 np_exp_le1).
Defined.

Lemma aggregated_rows_witness :
  let mat := aggregated svd exp np_random_seed (@quadratic_assignment R) le44
               tetra tetra idle in_order 2 in
  (forall a b, 0 <= mat a b) /\
  (forall a, \sum_b mat a b
             = \sum_(v <- trials svd exp np_random_seed
                            (@quadratic_assignment R) le44 tetra tetra idle
                            in_order 2) v.1.1).
Proof.
exact: (@aggregated_rows R svd exp rng np_random_seed (@quadratic_assignment R)
          3 (3 + 1) 3 (3 + 1) le44 tetra tetra 1 idle in_order 2
          schedule_in_order np_exp_ge0).
Defined.

Lemma returning_run_log_witness :
  (granni 1%:M tetra tetra idle in_order 2).1 =
  [:: Centering; Projection; Padding; Trial 0; Trial 1;
      Aggregation; Assignment; Estimation].
Proof.
have [log _ _] := @returning_run_log R svd exp rng np_random_seed
  (@quadratic_assignment R) (@linear_sum_assignment R) 3 (3 + 1) 3 (3 + 1)
  1%:M tetra tetra 1 idle in_order 2 1%:M 1%:M schedule_in_order
  (tetrahedron_run idle schedule_in_order).
exact: log.
Defined.

Import Draws.

Local Notation start5 := (- log 5%:R / 4%:R).
Local Notation step5 := (log 5%:R / (2%:R * (2%:R - 1))).

Lemma arange_some5 :
  exp_vec log arange 2 5%:R = Some (progression start5 step5 2).
Proof. by []. Qed.

Lemma arange_vals5 :
  take 2 (progression start5 step5 2) = progression start5 step5 2.
Proof. by []. Qed.

Lemma rand_mat_cond_singular_values_witness :
  exists2 M, Draws.rand_mat_cond 2 5%:R 0%N = (Some M, 3%N)
    & let U := (qr (scaled (np_random_rand 2 0%N).1)).1 in
      let s : 'rV[R]_2 := \row_i exp (start5 + i%:R * step5) ^+ 2 in
      orthogonal U /\
      M *m M^T = U *m diag_mx (\row_i s 0 i ^+ 2) *m U^T.
Proof.
apply: (@rand_mat_cond_singular_values R log exp arange qr rng np_random_rand
          np_random_normal 2 5%:R 0%N _ isT arange_some5 arange_vals5).
- exact: qr_rand.
- exact: qr_rand.
- exact: qr_normal.
Defined.

Lemma rand_mat_cond_determinant_witness :
  exists2 M, Draws.rand_mat_cond 2 5%:R 0%N = (Some M, 3%N)
           & \det M = 1 /\ M \in unitmx.
Proof.
apply: (@rand_mat_cond_determinant R log exp arange qr rng np_random_rand
          np_random_normal 2 5%:R 0%N _ isT arange_some5 arange_vals5).
- exact: qr_rand.
- exact: qr_rand.
- exact: qr_normal.
- exact: np_exp_add.
- exact: np_exp_gt0.
Defined.

Lemma rand_mat_cond_condition_number_witness :
  exists2 M, Draws.rand_mat_cond 2 5%:R 0%N = (Some M, 3%N)
    & let U := (qr (scaled (np_random_rand 2 0%N).1)).1 in
      let s (i : nat) := exp (nth 0 (progression start5 step5 2) i) ^+ 2 in
      [/\ orthogonal U,
          M *m M^T = U *m diag_mx (\row_(i < 2) s i ^+ 2) *m U^T,
          forall i j, (i <= j < 2)%N -> s i <= s j
        & s 1%N / s 0%N = 5%:R].
Proof.
apply: (@rand_mat_cond_condition_number R log exp arange qr rng np_random_rand
          np_random_normal 2 5%:R 0%N _ isT arange_some5 arange_vals5).
- exact: qr_rand.
- exact: qr_rand.
- exact: qr_normal.
- exact: np_exp_add.
- exact: np_exp_gt0.
- exact: np_exp_mono.
- exact: np_exp_log5.
- exact: np_log5_ge0.
Defined.

Lemma preimage_transformation_spec_witness :
  Transform.preimage_transformation (2%:R%:M : 'M[R]_3) 2%:R%:M = Some 1%:M.
Proof.
have [T -> [_ one]] :=
  @preimage_transformation_spec R 2%:R%:M 2%:R%:M (two_unit R).
by rewrite one.
Defined.

End FurtherWitnesses.
